(** * Task repositories: the in-memory store and the file-backed store

    A shallow embedding of the three classes [ITaskRepository],
    [InMemoryTaskRepository] and [FileTaskRepository], together with the
    part of the C++ library they rest on (std::string::find and substr,
    std::getline, ifstream and ofstream), and the properties of the
    storage contract.

    Conventions.
    - A std::string is a [string]; a character is an [ascii].
    - A [size_t] position returned by find is an [option nat]: [None]
      stands for [npos], the largest [size_t], which no position inside a
      string reaches.
    - An [int] is a [Z].
    - An operation that can throw returns an [option]; [None] is the
      exception.
    - Streams are opened in text mode on a platform whose text mode does
      not translate line ends. *)

From Stdlib Require Import ZArith String Ascii List Lia Bool.
From stdpp Require Import base option list gmap strings pretty.

Local Open Scope string_scope.
Local Open Scope Z_scope.
Local Open Scope list_scope.

(** ** Characters and strings *)

Module Str.

Definition comma : ascii := ","%char.
Definition newline : ascii := "010"%char.
Definition nl : string := String newline "".

(** [s.find(c)]: position of the first [c], or [npos]. *)
Fixpoint find (c : ascii) (s : string) : option nat :=
  match s with
  | EmptyString => None
  | String a s' =>
      if Ascii.eqb a c then Some 0%nat
      else match find c s' with
           | Some n => Some (S n)
           | None => None
           end
  end.

(** [commaPos + 1] in [size_t] arithmetic: [npos + 1] wraps around to 0. *)
Definition succ_pos (p : option nat) : nat :=
  match p with
  | Some n => S n
  | None => 0%nat
  end.

Fixpoint take (n : nat) (s : string) : string :=
  match n, s with
  | S n', String a s' => String a (take n' s')
  | _, _ => EmptyString
  end.

Fixpoint drop (n : nat) (s : string) : string :=
  match n, s with
  | S n', String _ s' => drop n' s'
  | _, _ => s
  end.

(** [s.substr(pos, count)]: the characters in
    [pos, min (pos + count) (size s)); throws std::out_of_range when
    [pos > size s].  A [count] of [None] is [npos], the default. *)
Definition substr (s : string) (pos : nat) (count : option nat) : option string :=
  if (String.length s <? pos)%nat then None
  else Some (match count with
             | Some n => take n (drop pos s)
             | None => drop pos s
             end).

Fixpoint no_char (c : ascii) (s : string) : bool :=
  match s with
  | EmptyString => true
  | String a s' => negb (Ascii.eqb a c) && no_char c s'
  end.

(** [starts_with p s]: [p] is a prefix of [s]. *)
Fixpoint starts_with (p s : string) : bool :=
  match p, s with
  | EmptyString, _ => true
  | String a p', String b s' => Ascii.eqb a b && starts_with p' s'
  | String _ _, EmptyString => false
  end.

End Str.

(** ** The [int] index and its comparison with a [size_t] size *)

(** [index >= 0 && index < size].  The comparison with the unsigned size
    converts [index] to [size_t]; it is evaluated only when [index >= 0],
    where the conversion keeps the value, so the test is the comparison of
    the two integers.  An index is a [Z], which covers every [int]. *)
Definition valid_index (index : Z) (size : nat) : bool :=
  (0 <=? index) && (index <? Z.of_nat size).

(** ** The contract *)

(** The abstract class: three virtual members.  [getTasks] is const, so it
    returns no new state. *)
Class ITaskRepository (R : Type) := {
  addTask : string → R → R;
  getTasks : R → option (list string);
  markTaskCompleted : Z → R → option R
}.

(** "[X] " + description or "[ ] " + description *)
Definition display (completed : bool) (description : string) : string :=
  if completed then "[X] " +:+ description else "[ ] " +:+ description.

(** ** The in-memory variant *)

Record Task := mkTask { description : string; completed : bool }.

Record InMemoryTaskRepository := mkInMemory { tasks : list Task }.

Module InMemory.

Definition empty : InMemoryTaskRepository := mkInMemory [].

Definition addTask (task : string) (r : InMemoryTaskRepository)
  : InMemoryTaskRepository :=
  mkInMemory (tasks r ++ [mkTask task false]).

Definition getTasks (r : InMemoryTaskRepository) : option (list string) :=
  Some ((λ task, display (completed task) (description task)) <$> tasks r).

(** [tasks[index]] is unchecked in C++; a read outside the vector is
    modelled as a failure, which the guard excludes. *)
Definition markTaskCompleted (index : Z) (r : InMemoryTaskRepository)
  : option InMemoryTaskRepository :=
  if valid_index index (length (tasks r)) then
    task ← tasks r !! Z.to_nat index;
    Some (mkInMemory (<[Z.to_nat index := mkTask (description task) true]> (tasks r)))
  else Some r.

End InMemory.

#[export] Instance InMemory_repository : ITaskRepository InMemoryTaskRepository := {
  addTask := InMemory.addTask;
  getTasks := InMemory.getTasks;
  markTaskCompleted := InMemory.markTaskCompleted
}.

(** ** The file system and the streams *)

(** What the program sees of the file system: the regular files by path,
    and whether a path can be opened for reading or for writing
    (permissions, a read-only medium, a missing directory).  No operation of
    the program changes what can be opened. *)
Record FileSystem := mkFS {
  files : gmap string string;
  can_read : string → bool;
  can_write : string → bool
}.

Definition set_files (m : gmap string string) (fs : FileSystem) : FileSystem :=
  mkFS m (can_read fs) (can_write fs).

Inductive open_mode := Truncate | Append.

Module Stream.

(** [ifstream file(path)]: the bytes to read, or [None] when [is_open()]
    is false. *)
Definition ifstream_open (path : string) (fs : FileSystem) : option string :=
  if can_read fs path then files fs !! path else None.

(** [ofstream file(path)] and [ofstream file(path, ios::app)]: the file
    system once the stream is open, or [None] when [is_open()] is false.
    Opening creates a missing file; without [ios::app] it empties an
    existing one. *)
Definition ofstream_open (mode : open_mode) (path : string) (fs : FileSystem)
  : option FileSystem :=
  if can_write fs path then
    Some (match mode with
          | Truncate => set_files (<[path := ""]> (files fs)) fs
          | Append => set_files (<[path := default "" (files fs !! path)]> (files fs)) fs
          end)
  else None.

(** [file << data] on an open output stream: the bytes go to the end. *)
Definition write (path : string) (data : string) (fs : FileSystem) : FileSystem :=
  set_files (<[path := default "" (files fs !! path) +:+ data]> (files fs)) fs.

(** The characters [getline] extracts, and what is left in the stream
    after the delimiter. *)
Fixpoint getline_chars (s : string) : string * string :=
  match s with
  | EmptyString => (EmptyString, EmptyString)
  | String c s' =>
      if Ascii.eqb c Str.newline then (EmptyString, s')
      else let '(line, rest) := getline_chars s' in (String c line, rest)
  end.

(** [getline(file, line)] as a condition: false ([None]) when nothing is
    left to extract. *)
Definition getline (s : string) : option (string * string) :=
  match s with
  | EmptyString => None
  | String _ _ => Some (getline_chars s)
  end.

(** [while (getline(file, line)) lines.push_back(line);] Each round
    consumes a character at least, so the length of the stream and one
    more is fuel enough. *)
Fixpoint read_loop (fuel : nat) (s : string) : list string :=
  match fuel with
  | O => []
  | S fuel' =>
      match getline s with
      | None => []
      | Some (line, rest) => line :: read_loop fuel' rest
      end
  end.

Definition read_lines (s : string) : list string :=
  read_loop (S (String.length s)) s.

End Stream.

(** ** The file-backed variant *)

Record FileTaskRepository := mkFileRepo { filePath : string }.

Module FileRepo.

(** The body of the loop of [getTasks]: one line to one display string. *)
Definition format_line (line : string) : option string :=
  let commaPos := Str.find Str.comma line in
  description ← Str.substr line 0 commaPos;
  suffix ← Str.substr line (Str.succ_pos commaPos) None;
  let completed := String.eqb suffix "true" in
  Some (display completed description).

(** [lines[index] = lines[index].substr(0, commaPos + 1) + "true"] *)
Definition complete_line (line : string) : option string :=
  let commaPos := Str.find Str.comma line in
  prefix ← Str.substr line 0 (Some (Str.succ_pos commaPos));
  Some (prefix +:+ "true").

Definition addTask (task : string) (r : FileTaskRepository) (fs : FileSystem)
  : FileSystem :=
  match Stream.ofstream_open Append (filePath r) fs with
  | Some fs' =>
      Stream.write (filePath r) (",false" +:+ Str.nl)
        (Stream.write (filePath r) task fs')
  | None => fs
  end.

Definition getTasks (r : FileTaskRepository) (fs : FileSystem)
  : option (list string) :=
  match Stream.ifstream_open (filePath r) fs with
  | Some data => mapM format_line (Stream.read_lines data)
  | None => Some []
  end.

Definition markTaskCompleted (index : Z) (r : FileTaskRepository) (fs : FileSystem)
  : option FileSystem :=
  let lines :=
    match Stream.ifstream_open (filePath r) fs with
    | Some data => Stream.read_lines data
    | None => []
    end in
  lines' ← (if valid_index index (length lines) then
              line ← lines !! Z.to_nat index;
              line' ← complete_line line;
              Some (<[Z.to_nat index := line']> lines)
            else Some lines);
  Some (match Stream.ofstream_open Truncate (filePath r) fs with
        | Some fs' =>
            foldl (λ out line, Stream.write (filePath r) Str.nl
                                 (Stream.write (filePath r) line out))
                  fs' lines'
        | None => fs
        end).

End FileRepo.

(** ** A store of either variant, and sessions *)

Inductive Store :=
| Mem (r : InMemoryTaskRepository)
| File (r : FileTaskRepository) (fs : FileSystem).

#[export] Instance Store_repository : ITaskRepository Store := {
  addTask task s :=
    match s with
    | Mem r => Mem (addTask task r)
    | File r fs => File r (FileRepo.addTask task r fs)
    end;
  getTasks s :=
    match s with
    | Mem r => getTasks r
    | File r fs => FileRepo.getTasks r fs
    end;
  markTaskCompleted index s :=
    match s with
    | Mem r => Mem <$> markTaskCompleted index r
    | File r fs => File r <$> FileRepo.markTaskCompleted index r fs
    end
}.

(** A call of the contract. *)
Inductive Call :=
| AddTask (task : string)
| GetTasks
| MarkTaskCompleted (index : Z).

Definition call {R} `{ITaskRepository R} (c : Call) (s : R) : option R :=
  match c with
  | AddTask task => Some (addTask task s)
  | GetTasks => _ ← getTasks s; Some s
  | MarkTaskCompleted index => markTaskCompleted index s
  end.

Fixpoint session {R} `{ITaskRepository R} (cs : list Call) (s : R) : option R :=
  match cs with
  | [] => Some s
  | c :: cs' => s' ← call c s; session cs' s'
  end.

(** ** Derived notions used to state the properties *)

(** The line a task is stored as: [description + "," + flag]. *)
Definition encode (t : Task) : string :=
  description t +:+ "," +:+ (if completed t then "true" else "false").

(** The bytes [markTaskCompleted] writes for a vector of lines: every line
    followed by a line end. *)
Definition join_lines (ls : list string) : string :=
  foldr (λ line acc, line +:+ Str.nl +:+ acc) "" ls.

(** The display string [format_line] computes, without the error layer. *)
Definition render (line : string) : string :=
  match Str.find Str.comma line with
  | Some n => display (String.eqb (Str.drop (S n) line) "true") (Str.take n line)
  | None => display (String.eqb line "true") line
  end.

(** The line [complete_line] computes, without the error layer. *)
Definition completed_line (line : string) : string :=
  match Str.find Str.comma line with
  | Some n => Str.take (S n) line +:+ "true"
  | None => "true"
  end.

(** The vector [lines] of [markTaskCompleted] after the guarded update. *)
Definition mark_lines (index : Z) (ls : list string) : list string :=
  if valid_index index (length ls) then alter completed_line (Z.to_nat index) ls
  else ls.

(** The display string of a task in memory. *)
Definition show_task (t : Task) : string :=
  display (completed t) (description t).

(** [tasks[index].completed = true] *)
Definition complete_task (t : Task) : Task := mkTask (description t) true.

(** The vector [tasks] after the guarded update. *)
Definition mark_tasks (index : Z) (ts : list Task) : list Task :=
  if valid_index index (length ts) then alter complete_task (Z.to_nat index) ts
  else ts.

Module FileView.

(** The bytes at the path of the repository; nothing when there is no
    file. *)
Definition content (r : FileTaskRepository) (fs : FileSystem) : string :=
  default "" (files fs !! filePath r).

(** The lines a read phase sees. *)
Definition lines (r : FileTaskRepository) (fs : FileSystem) : list string :=
  match Stream.ifstream_open (filePath r) fs with
  | Some data => Stream.read_lines data
  | None => []
  end.

(** A text whose last line is ended: reading its lines and writing them
    back gives the same bytes.  The empty text is one. *)
Definition ended (data : string) : bool :=
  String.eqb (join_lines (Stream.read_lines data)) data.

(** The file system [addTask] leaves. *)
Definition added (task : string) (r : FileTaskRepository) (fs : FileSystem)
  : FileSystem :=
  if can_write fs (filePath r) then
    set_files (<[filePath r := content r fs +:+ task +:+ ",false" +:+ Str.nl]>
                 (files fs)) fs
  else fs.

(** The file system [markTaskCompleted] leaves. *)
Definition marked (index : Z) (r : FileTaskRepository) (fs : FileSystem)
  : FileSystem :=
  if can_write fs (filePath r) then
    set_files (<[filePath r := join_lines (mark_lines index (lines r fs))]>
                 (files fs)) fs
  else fs.

End FileView.

(** No line holds a line end. *)
Definition no_newlines (ls : list string) : Prop :=
  Forall (λ line, Str.no_char Str.newline line = true) ls.

(** A description the line format carries unchanged: no comma, no line
    end. *)
Definition plain (d : string) : bool :=
  Str.no_char Str.comma d && Str.no_char Str.newline d.

Definition plain_call (c : Call) : bool :=
  match c with
  | AddTask task => plain task
  | GetTasks | MarkTaskCompleted _ => true
  end.

(** The store holds no task: an empty vector; a missing or empty file. *)
Definition is_empty (s : Store) : bool :=
  match s with
  | Mem r => match tasks r with [] => true | _ :: _ => false end
  | File r fs => String.eqb (FileView.content r fs) ""
  end.

(** The streams of the store open: always in memory. *)
Definition readable (s : Store) : bool :=
  match s with
  | Mem _ => true
  | File r fs => can_read fs (filePath r)
  end.

Definition writable (s : Store) : bool :=
  match s with
  | Mem _ => true
  | File r fs => can_write fs (filePath r)
  end.

(** What a store can take as a description and give back as it was. *)
Definition storable (s : Store) (d : string) : bool :=
  match s with
  | Mem _ => true
  | File _ _ => plain d
  end.

(** The backing text, when there is one, ends its last line. *)
Definition well_ended (s : Store) : bool :=
  match s with
  | Mem _ => true
  | File r fs => FileView.ended (FileView.content r fs)
  end.

(** The stored form of entry [i] has the comma the format asks for. *)
Definition has_comma_at (s : Store) (i : nat) : bool :=
  match s with
  | Mem _ => true
  | File r fs =>
      match FileView.lines r fs !! i with
      | Some line => negb (Str.no_char Str.comma line)
      | None => false
      end
  end.

(** The file holds the vector of tasks, line by line, and opens both
    ways. *)
Definition sim (ts : list Task) (r : FileTaskRepository) (fs : FileSystem) : Prop :=
  can_read fs (filePath r) = true
  ∧ can_write fs (filePath r) = true
  ∧ FileView.content r fs = join_lines (encode <$> ts)
  ∧ Forall (λ t, plain (description t) = true) ts.

(** Entry [i] of the listing shows as completed. *)
Definition shows_completed (s : Store) (i : nat) : Prop :=
  ∃ l e, getTasks s = Some l ∧ l !! i = Some e ∧ Str.starts_with "[X] " e = true.

(** [addTask] called once for each description, in order. *)
Definition add_all {R} `{ITaskRepository R} (descs : list string) (s : R) : R :=
  foldl (λ st d, addTask d st) s descs.

(** A store on the path "tasks.txt" of a file system that lets every path
    be opened and holds the given files. *)
Definition file_store (m : gmap string string) : Store :=
  File (mkFileRepo "tasks.txt") (mkFS m (λ _, true) (λ _, true)).

(** The same where nothing can be opened for writing. *)
Definition read_only_store (m : gmap string string) : Store :=
  File (mkFileRepo "tasks.txt") (mkFS m (λ _, true) (λ _, false)).

(** The session of the scenario of the specification. *)
Definition buy_and_write : list Call :=
  [AddTask "Buy milk"; AddTask "Write report"; MarkTaskCompleted 0].

(** The fresh object the constructor [FileTaskRepository(path)] builds. *)
Definition new_FileTaskRepository (path : string) : FileTaskRepository :=
  mkFileRepo path.


(** ** The console and [TaskManagerUI] *)

(** The input side of [cin], as far as the program uses it.  The stream
    library is not part of the program: its three operations are an
    interface, and what is proved of the program holds for every stream
    that offers them. *)
Class Istream (I : Type) := {
  (** [cin >> x] for an [int x]: the value [x] holds afterwards. *)
  extract_int : I → Z * I;
  (** [cin.ignore()] *)
  ignore : I → I;
  (** [getline(cin, s)] for an empty [s]: the string [s] holds afterwards. *)
  getline_cin : I → string * I
}.

(** The two standard streams: what is left to read and what was written. *)
Record Console (I : Type) := mkConsole { cin : I; cout : string }.
Arguments mkConsole {I} cin cout.
Arguments cin {I} c.
Arguments cout {I} c.

(** [cout << text] *)
Definition put {I} (text : string) (c : Console I) : Console I :=
  mkConsole (cin c) (cout c +:+ text).

(** The stream moves on, the output stays. *)
Definition consume {I} (rest : I) (c : Console I) : Console I :=
  mkConsole rest (cout c).

(** [i + 1] for a [size_t i], as [cout] prints it. *)
Definition size_t_succ (i : nat) : N := ((N.of_nat i + 1) mod 2 ^ 64)%N.

(** [index - 1] for an [int]: below the least [int] there is none, and the
    subtraction is undefined. *)
Definition int_pred (index : Z) : option Z :=
  if index =? - 2 ^ 31 then None else Some (index - 1).

(** How a call of [run] stands: it returned, it threw (or left defined
    behaviour), or the loop is still going when the fuel is spent. *)
Inductive outcome (A : Type) :=
| Returned (a : A)
| Thrown
| Running.
Arguments Returned {A} a.
Arguments Thrown {A}.
Arguments Running {A}.

Module TaskManagerUI.

Section Methods.

Context {R : Type} `{ITaskRepository R} {I : Type} `{Istream I}.

(** The loop of [viewTasks] and of [markTaskCompleted]:
    [cout << i + 1 << ". " << tasks[i] << "\n"] from index [i] on. *)
Fixpoint print_tasks (i : nat) (tasks : list string) (c : Console I) : Console I :=
  match tasks with
  | [] => c
  | task :: rest =>
      print_tasks (S i) rest
        (put Str.nl (put task (put ". " (put (pretty (size_t_succ i)) c))))
  end.

Definition viewTasks (repository : R) (c : Console I) : option (Console I) :=
  tasks ← getTasks repository;
  Some (match tasks with
        | [] => put ("No tasks available." +:+ Str.nl) c
        | _ :: _ => print_tasks 0 tasks (put (Str.nl +:+ "Tasks:" +:+ Str.nl) c)
        end).

Definition addTask (repository : R) (c : Console I) : Console I * R :=
  let c := put "Enter a new task: " c in
  let '(task, rest) := getline_cin (cin c) in
  let c := consume rest c in
  let repository := addTask task repository in
  (put ("Task added successfully." +:+ Str.nl) c, repository).

Definition markTaskCompleted (repository : R) (c : Console I)
  : option (Console I * R) :=
  tasks ← getTasks repository;
  match tasks with
  | [] =>
      Some (put ("No tasks available to mark as completed." +:+ Str.nl) c,
            repository)
  | _ :: _ =>
      let c := print_tasks 0 tasks (put (Str.nl +:+ "Tasks:" +:+ Str.nl) c) in
      let c := put "Enter the task number to mark as completed: " c in
      let '(index, rest) := extract_int (cin c) in
      let c := consume rest c in
      index' ← int_pred index;
      repository ← markTaskCompleted index' repository;
      Some (put ("Task marked as completed." +:+ Str.nl) c, repository)
  end.

(** The six lines written at the head of every round. *)
Definition menu : string :=
  (Str.nl +:+ "Task Manager" +:+ Str.nl)
  +:+ ("1. View tasks" +:+ Str.nl)
  +:+ ("2. Add task" +:+ Str.nl)
  +:+ ("3. Mark task as completed" +:+ Str.nl)
  +:+ ("4. Exit" +:+ Str.nl)
  +:+ "Choose an option: ".

(** [while (true) { ... }]: one unit of fuel for each round. *)
Fixpoint run (fuel : nat) (repository : R) (c : Console I)
  : outcome (Console I * R) :=
  match fuel with
  | O => Running
  | S fuel' =>
      let c := put menu c in
      let '(choice, rest) := extract_int (cin c) in
      let c := consume (ignore rest) c in
      match choice with
      | 1 =>
          match viewTasks repository c with
          | Some c' => run fuel' repository c'
          | None => Thrown
          end
      | 2 =>
          let '(c', repository') := addTask repository c in
          run fuel' repository' c'
      | 3 =>
          match markTaskCompleted repository c with
          | Some (c', repository') => run fuel' repository' c'
          | None => Thrown
          end
      | 4 => Returned (put ("Exiting..." +:+ Str.nl) c, repository)
      | _ =>
          run fuel' repository
            (put ("Invalid choice. Please try again." +:+ Str.nl) c)
      end
  end.

End Methods.

End TaskManagerUI.

(** [main]: the user interface on a fresh in-memory repository. *)
Definition main {I} `{Istream I} (fuel : nat) (input : I)
  : outcome (Console I * Store) :=
  TaskManagerUI.run fuel (Mem InMemory.empty) (mkConsole input "").

(** A stream for examples: the integers and the lines it will hand out, in
    order; 0 and the empty line once it has run out. *)
Record Script := mkScript { ints : list Z; texts : list string }.

#[export] Instance Script_istream : Istream Script := {
  extract_int i :=
    match ints i with
    | [] => (0, i)
    | n :: rest => (n, mkScript rest (texts i))
    end;
  ignore i := i;
  getline_cin i :=
    match texts i with
    | [] => ("", i)
    | line :: rest => (line, mkScript (ints i) rest)
    end
}.

(** The lines [print_tasks] writes from index [i] on. *)
Definition numbered (i : nat) (tasks : list string) : string :=
  foldr String.append ""
    (imap (λ k task, pretty (N.of_nat (i + k + 1)) +:+ ". " +:+ task +:+ Str.nl)
          tasks).

(** What [viewTasks] writes for a listing. *)
Definition listing_text (tasks : list string) : string :=
  match tasks with
  | [] => "No tasks available." +:+ Str.nl
  | _ :: _ => Str.nl +:+ "Tasks:" +:+ Str.nl +:+ numbered 0 tasks
  end.

(** The descriptions a sequence of calls adds, in order. *)
Definition added_descriptions (cs : list Call) : list string :=
  omap (λ c, match c with AddTask task => Some task | _ => None end) cs.

(** The part of a description before its first comma; all of it when it
    has none. *)
Definition before_comma (d : string) : string :=
  match Str.find Str.comma d with
  | Some n => Str.take n d
  | None => d
  end.

(** The line ends in a text. *)
Fixpoint count_newlines (s : string) : nat :=
  match s with
  | EmptyString => 0
  | String c s' => (if Ascii.eqb c Str.newline then 1 else 0) + count_newlines s'
  end.

(** ** Strings *)

Lemma append_cons (a : ascii) (s t : string) :
  String a s +:+ t = String a (s +:+ t).
Proof. reflexivity. Qed.

Lemma append_nil_l (t : string) : "" +:+ t = t.
Proof. reflexivity. Qed.

Lemma take_cons (n : nat) (a : ascii) (s : string) :
  Str.take (S n) (String a s) = String a (Str.take n s).
Proof. reflexivity. Qed.

Lemma drop_cons (n : nat) (a : ascii) (s : string) :
  Str.drop (S n) (String a s) = Str.drop n s.
Proof. reflexivity. Qed.

(** Push [+:+], [take] and [drop] through the constructors and compute the
    other string primitives on what appears. *)
Ltac str_simpl :=
  repeat (rewrite ?take_cons, ?drop_cons, ?append_cons, ?append_nil_l;
          progress cbn [Str.find Str.no_char Str.starts_with
                        String.length negb andb]);
  rewrite ?take_cons, ?drop_cons, ?append_cons, ?append_nil_l.

Section StringFacts.

Lemma append_nil_r (s : string) : s +:+ "" = s.
Proof. induction s as [|a s IH]; [done |]. str_simpl. by f_equal. Qed.

Lemma append_assoc (s t u : string) : (s +:+ t) +:+ u = s +:+ t +:+ u.
Proof. induction s as [|a s IH]; [done |]. str_simpl. by f_equal. Qed.

Lemma length_append (s t : string) :
  String.length (s +:+ t) = (String.length s + String.length t)%nat.
Proof. induction s as [|a s IH]; [done |]. str_simpl. rewrite IH. lia. Qed.

Lemma take_append (s t : string) : Str.take (String.length s) (s +:+ t) = s.
Proof.
  induction s as [|a s IH]; [by destruct t |]. str_simpl. by f_equal.
Qed.

Lemma drop_append (s t : string) : Str.drop (String.length s) (s +:+ t) = t.
Proof. induction s as [|a s IH]; [by destruct t |]. by str_simpl. Qed.

Lemma take_drop (n : nat) (s : string) : Str.take n s +:+ Str.drop n s = s.
Proof.
  revert s; induction n as [|n IH]; intros [|a s]; try done.
  str_simpl. f_equal. apply IH.
Qed.

Lemma no_char_append (c : ascii) (s t : string) :
  Str.no_char c (s +:+ t) = Str.no_char c s && Str.no_char c t.
Proof.
  induction s as [|a s IH]; [done |].
  str_simpl. by rewrite IH, andb_assoc.
Qed.

(** Where [find] points there is the character, and none before it. *)
Lemma find_Some (c : ascii) (s : string) (n : nat) :
  Str.find c s = Some n →
  s = Str.take n s +:+ String c (Str.drop (S n) s)
  ∧ Str.no_char c (Str.take n s) = true
  ∧ String.length (Str.take n s) = n.
Proof.
  revert n; induction s as [|a s IH]; intros n; [done |].
  cbn [Str.find].
  destruct (Ascii.eqb_spec a c) as [->|Hne].
  - intros [= <-]. done.
  - destruct (Str.find c s) as [m|] eqn:E; [|done].
    intros [= <-]. destruct (IH m eq_refl) as (H1 & H2 & H3).
    str_simpl.
    rewrite H2, H3. split; [by rewrite <- H1 |].
    split; [|done]. apply Ascii.eqb_neq in Hne. by rewrite Hne.
Qed.

Lemma find_None (c : ascii) (s : string) :
  Str.find c s = None ↔ Str.no_char c s = true.
Proof.
  induction s as [|a s IH]; [done |].
  cbn [Str.find Str.no_char].
  destruct (Ascii.eqb a c); cbn [negb andb]; [done |].
  destruct (Str.find c s); [|tauto].
  split; [done |]. intros H. by apply IH in H.
Qed.

Lemma find_append (c : ascii) (d t : string) :
  Str.no_char c d = true →
  Str.find c (d +:+ String c t) = Some (String.length d).
Proof.
  induction d as [|a d IH]; str_simpl.
  - by rewrite Ascii.eqb_refl.
  - intros [Ha Hd]%andb_prop. apply negb_true_iff in Ha. rewrite Ha.
    by rewrite (IH Hd).
Qed.

Lemma find_lt (c : ascii) (s : string) (n : nat) :
  Str.find c s = Some n → (n < String.length s)%nat.
Proof.
  revert n; induction s as [|a s IH]; intros n; [done |].
  cbn [Str.find String.length].
  destruct (Ascii.eqb a c); [intros [= <-]; lia |].
  destruct (Str.find c s) as [m|]; [|done].
  intros [= <-]. specialize (IH m eq_refl). lia.
Qed.

Lemma starts_with_append (p s : string) : Str.starts_with p (p +:+ s) = true.
Proof.
  induction p as [|a p IH]; [done |].
  str_simpl. by rewrite Ascii.eqb_refl.
Qed.

End StringFacts.

(** ** One line: decoding and completing *)

Section LineFacts.

Lemma drop_0 (s : string) : Str.drop 0 s = s.
Proof. by destruct s. Qed.

Lemma take_0 (s : string) : Str.take 0 s = "".
Proof. by destruct s. Qed.

Lemma take_succ_append (c : ascii) (d t : string) :
  Str.take (S (String.length d)) (d +:+ String c t) = d +:+ String c "".
Proof.
  induction d as [|a d IH]; str_simpl; [by rewrite take_0 |].
  rewrite <- IH. by str_simpl.
Qed.

Lemma drop_succ_append (c : ascii) (d t : string) :
  Str.drop (S (String.length d)) (d +:+ String c t) = t.
Proof.
  induction d as [|a d IH]; str_simpl; [apply drop_0 | done].
Qed.

(** [substr] throws only for a start beyond the end. *)
Lemma substr_in_range (s : string) (pos : nat) (count : option nat) :
  (pos ≤ String.length s)%nat →
  Str.substr s pos count =
    Some (match count with
          | Some n => Str.take n (Str.drop pos s)
          | None => Str.drop pos s
          end).
Proof.
  intros H. unfold Str.substr.
  destruct (Nat.ltb_spec (String.length s) pos); [lia | done].
Qed.

(** [format_line] never throws, and computes [render]. *)
Lemma format_line_render (line : string) :
  FileRepo.format_line line = Some (render line).
Proof.
  unfold FileRepo.format_line, render.
  destruct (Str.find Str.comma line) as [n|] eqn:E.
  - apply find_lt in E.
    rewrite !substr_in_range by (cbn [Str.succ_pos]; lia).
    by rewrite drop_0.
  - rewrite !substr_in_range by (cbn [Str.succ_pos]; lia).
    by rewrite drop_0.
Qed.

(** [complete_line] never throws, and computes [completed_line]. *)
Lemma complete_line_completed (line : string) :
  FileRepo.complete_line line = Some (completed_line line).
Proof.
  unfold FileRepo.complete_line, completed_line.
  rewrite substr_in_range by lia. rewrite drop_0.
  destruct (Str.find Str.comma line) as [n|]; [done |].
  cbn [Str.succ_pos]. by rewrite take_0.
Qed.

(** First-comma split of a line that has a comma. *)
Lemma render_split (d sfx : string) :
  Str.no_char Str.comma d = true →
  render (d +:+ String Str.comma sfx) = display (String.eqb sfx "true") d.
Proof.
  intros Hd. unfold render. rewrite (find_append _ _ _ Hd).
  by rewrite drop_succ_append, take_append.
Qed.

Lemma render_no_comma (line : string) :
  Str.no_char Str.comma line = true →
  render line = display (String.eqb line "true") line.
Proof. intros H%find_None. unfold render. by rewrite H. Qed.

Lemma completed_line_split (d sfx : string) :
  Str.no_char Str.comma d = true →
  completed_line (d +:+ String Str.comma sfx) = d +:+ String Str.comma "true".
Proof.
  intros Hd. unfold completed_line. rewrite (find_append _ _ _ Hd).
  by rewrite take_succ_append, append_assoc.
Qed.

Lemma completed_line_no_comma (line : string) :
  Str.no_char Str.comma line = true → completed_line line = "true".
Proof. intros H%find_None. unfold completed_line. by rewrite H. Qed.

(** Every line splits at its first comma, or has none. *)
Lemma line_cases (line : string) :
  (∃ d sfx, line = d +:+ String Str.comma sfx ∧ Str.no_char Str.comma d = true)
  ∨ Str.no_char Str.comma line = true.
Proof.
  destruct (Str.find Str.comma line) as [n|] eqn:E.
  - left. destruct (find_Some _ _ _ E) as (H1 & H2 & _). eauto.
  - right. by apply find_None.
Qed.

Lemma render_completed_line (line : string) :
  Str.starts_with "[X] " (render (completed_line line)) = true.
Proof.
  destruct (line_cases line) as [(d & sfx & -> & Hd)|H].
  - rewrite (completed_line_split _ _ Hd), (render_split _ _ Hd).
    apply starts_with_append.
  - by rewrite (completed_line_no_comma _ H).
Qed.

Lemma completed_line_idemp (line : string) :
  completed_line (completed_line line) = completed_line line.
Proof.
  destruct (line_cases line) as [(d & sfx & -> & Hd)|H].
  - by rewrite !(completed_line_split _ _ Hd).
  - by rewrite (completed_line_no_comma _ H).
Qed.

Lemma completed_line_no_newline (line : string) :
  Str.no_char Str.newline line = true →
  Str.no_char Str.newline (completed_line line) = true.
Proof.
  destruct (line_cases line) as [(d & sfx & -> & Hd)|H].
  - rewrite (completed_line_split _ _ Hd), !no_char_append.
    intros [-> _]%andb_prop. done.
  - by rewrite (completed_line_no_comma _ H).
Qed.

(** A line that shows as completed still does once completed again. *)
Lemma render_completed_keeps (line : string) :
  Str.starts_with "[X] " (render line) = true →
  render (completed_line line) = render line.
Proof.
  destruct (line_cases line) as [(d & sfx & -> & Hd)|H].
  - rewrite (completed_line_split _ _ Hd), !(render_split _ _ Hd).
    destruct (String.eqb_spec sfx "true") as [->|]; [done |].
    unfold display. by str_simpl.
  - rewrite (completed_line_no_comma _ H), (render_no_comma _ H).
    destruct (String.eqb_spec line "true") as [->|]; [done |].
    unfold display. by str_simpl.
Qed.

End LineFacts.

(** ** Reading lines and writing them back *)

Section ReadFacts.

Lemma getline_chars_shorter (s : string) :
  (String.length (Stream.getline_chars s).2 ≤ String.length s)%nat.
Proof.
  induction s as [|c s IH]; [done |].
  cbn [Stream.getline_chars String.length].
  destruct (Ascii.eqb c Str.newline); [cbn; lia |].
  destruct (Stream.getline_chars s) as [line rest]. cbn in *. lia.
Qed.

(** A round of the loop consumes a character at least. *)
Lemma getline_chars_cons_shorter (c : ascii) (s : string) :
  (String.length (Stream.getline_chars (String c s)).2 ≤ String.length s)%nat.
Proof.
  cbn [Stream.getline_chars].
  destruct (Ascii.eqb c Str.newline); [done |].
  pose proof (getline_chars_shorter s).
  by destruct (Stream.getline_chars s) as [line rest].
Qed.

Lemma read_loop_round (fuel : nat) (c : ascii) (s : string) :
  Stream.read_loop (S fuel) (String c s) =
    (Stream.getline_chars (String c s)).1
      :: Stream.read_loop fuel (Stream.getline_chars (String c s)).2.
Proof.
  cbn [Stream.read_loop Stream.getline].
  by destruct (Stream.getline_chars (String c s)).
Qed.

(** More fuel than the length of the stream changes nothing. *)
Lemma read_loop_enough (fuel fuel' : nat) (s : string) :
  (String.length s < fuel)%nat → (String.length s < fuel')%nat →
  Stream.read_loop fuel s = Stream.read_loop fuel' s.
Proof.
  revert fuel' s. induction fuel as [|fuel IH]; intros [|fuel'] s H H'; try lia.
  destruct s as [|c s]; [done |].
  rewrite !read_loop_round.
  pose proof (getline_chars_cons_shorter c s) as Hrest.
  cbn [String.length] in *. f_equal. apply IH; lia.
Qed.

(** The loop, one round at a time. *)
Lemma read_lines_step (c : ascii) (s : string) :
  Stream.read_lines (String c s) =
    (Stream.getline_chars (String c s)).1
      :: Stream.read_lines (Stream.getline_chars (String c s)).2.
Proof.
  unfold Stream.read_lines. rewrite read_loop_round.
  pose proof (getline_chars_cons_shorter c s) as Hrest.
  f_equal. apply read_loop_enough; cbn [String.length]; lia.
Qed.

Lemma read_lines_empty : Stream.read_lines "" = [].
Proof. reflexivity. Qed.

(** The lines of a text from the lines of its tail. *)
Lemma read_lines_cons (c : ascii) (s : string) :
  Stream.read_lines (String c s) =
    if Ascii.eqb c Str.newline then "" :: Stream.read_lines s
    else match Stream.read_lines s with
         | [] => [String c ""]
         | line :: ls => String c line :: ls
         end.
Proof.
  rewrite read_lines_step. cbn [Stream.getline_chars].
  destruct (Ascii.eqb c Str.newline); [done |].
  destruct s as [|b s]; [done |].
  rewrite read_lines_step.
  by destruct (Stream.getline_chars (String b s)) as [line rest].
Qed.

Lemma read_lines_line (d x : string) :
  Str.no_char Str.newline d = true →
  Stream.read_lines (d +:+ String Str.newline x) = d :: Stream.read_lines x.
Proof.
  induction d as [|a d IH]; str_simpl.
  - intros _. by rewrite read_lines_cons.
  - intros [Ha Hd]%andb_prop. apply negb_true_iff in Ha.
    by rewrite read_lines_cons, Ha, (IH Hd).
Qed.

Lemma join_lines_cons (line : string) (ls : list string) :
  join_lines (line :: ls) = line +:+ String Str.newline (join_lines ls).
Proof. reflexivity. Qed.

Lemma join_lines_app (ls ks : list string) :
  join_lines (ls ++ ks) = join_lines ls +:+ join_lines ks.
Proof.
  induction ls as [|line ls IH]; [done |].
  rewrite <- app_comm_cons, !join_lines_cons, IH.
  by rewrite append_assoc, append_cons.
Qed.

(** Lines written by [join_lines] are read back as they were. *)
Lemma read_lines_join (ls : list string) (x : string) :
  no_newlines ls →
  Stream.read_lines (join_lines ls +:+ x) = ls ++ Stream.read_lines x.
Proof.
  induction 1 as [|line ls Hline _ IH]; [done |].
  rewrite join_lines_cons, append_assoc, append_cons.
  by rewrite (read_lines_line _ _ Hline), IH.
Qed.

Lemma read_lines_join_lines (ls : list string) :
  no_newlines ls → Stream.read_lines (join_lines ls) = ls.
Proof.
  intros H. rewrite <- (append_nil_r (join_lines ls)).
  rewrite (read_lines_join _ _ H). apply app_nil_r.
Qed.

(** No line read holds a line end. *)
Lemma read_lines_no_newlines (s : string) : no_newlines (Stream.read_lines s).
Proof.
  induction s as [|c s IH]; [constructor |].
  rewrite read_lines_cons.
  destruct (Ascii.eqb c Str.newline) eqn:E; [by constructor |].
  destruct (Stream.read_lines s) as [|line ls].
  - constructor; [|constructor]. cbn. by rewrite E.
  - inversion_clear IH as [|? ? Hline Hls]. constructor; [|done].
    cbn. by rewrite E.
Qed.

(** A text with a line end appended is read and written back unchanged. *)
Lemma join_read_lines_nl (s : string) :
  join_lines (Stream.read_lines (s +:+ Str.nl)) = s +:+ Str.nl.
Proof.
  induction s as [|c s IH]; [done |].
  rewrite append_cons, read_lines_cons.
  destruct (Ascii.eqb_spec c Str.newline) as [->|Hc].
  - by rewrite join_lines_cons, IH.
  - destruct (Stream.read_lines (s +:+ Str.nl)) as [|line ls].
    + by destruct s.
    + rewrite join_lines_cons in *. rewrite append_cons. by f_equal.
Qed.

(** The loop reads the stream to its end: the lines read, written back,
    are the text, with a line end added when the last line had none. *)
Lemma join_read_lines (s : string) :
  join_lines (Stream.read_lines s) = s
  ∨ join_lines (Stream.read_lines s) = s +:+ Str.nl.
Proof.
  induction s as [|c s IH]; [by left |].
  rewrite read_lines_cons.
  destruct (Ascii.eqb_spec c Str.newline) as [->|Hc].
  - rewrite join_lines_cons, append_nil_l, append_cons.
    destruct IH as [-> | ->]; auto.
  - destruct (Stream.read_lines s) as [|line ls].
    + right. destruct IH as [<- | IH]; [done | by destruct s].
    + rewrite join_lines_cons, append_cons in *. rewrite append_cons.
      destruct IH as [-> | ->]; auto.
Qed.

Lemma ended_spec (data : string) :
  FileView.ended data = true ↔ join_lines (Stream.read_lines data) = data.
Proof. unfold FileView.ended. apply String.eqb_eq. Qed.

Lemma ended_join (ls : list string) :
  no_newlines ls → FileView.ended (join_lines ls) = true.
Proof. intros H. apply ended_spec. by rewrite read_lines_join_lines. Qed.

(** After an ended text the lines of what follows are read on their own. *)
Lemma read_lines_ended_app (data x : string) :
  FileView.ended data = true →
  Stream.read_lines (data +:+ x) = Stream.read_lines data ++ Stream.read_lines x.
Proof.
  intros H%ended_spec. rewrite <- H at 1.
  apply read_lines_join, read_lines_no_newlines.
Qed.

Lemma ended_app_nl (data x : string) :
  FileView.ended data = true → FileView.ended (data +:+ x +:+ Str.nl) = true.
Proof.
  intros H. apply ended_spec. rewrite (read_lines_ended_app _ _ H).
  apply ended_spec in H. by rewrite join_lines_app, H, join_read_lines_nl.
Qed.

End ReadFacts.

(** ** The three operations on a file, without the streams *)

Section FileFacts.

Implicit Types (r : FileTaskRepository) (fs : FileSystem).

Lemma valid_index_spec (index : Z) (size : nat) :
  valid_index index size = true ↔ 0 <= index < Z.of_nat size.
Proof. unfold valid_index. rewrite andb_true_iff, Z.leb_le, Z.ltb_lt. done. Qed.

Lemma valid_index_nat (i size : nat) :
  valid_index (Z.of_nat i) size = true ↔ (i < size)%nat.
Proof. rewrite valid_index_spec. lia. Qed.

Lemma lines_readable r fs :
  can_read fs (filePath r) = true →
  FileView.lines r fs = Stream.read_lines (FileView.content r fs).
Proof.
  intros H. unfold FileView.lines, FileView.content, Stream.ifstream_open.
  rewrite H. by destruct (files fs !! filePath r).
Qed.

Lemma lines_unreadable r fs :
  can_read fs (filePath r) = false → FileView.lines r fs = [].
Proof.
  intros H. unfold FileView.lines, Stream.ifstream_open. by rewrite H.
Qed.

Lemma lines_no_newlines r fs : no_newlines (FileView.lines r fs).
Proof.
  unfold FileView.lines.
  destruct (Stream.ifstream_open (filePath r) fs);
    [apply read_lines_no_newlines | constructor].
Qed.

Lemma mapM_format_line (ls : list string) :
  mapM FileRepo.format_line ls = Some (render <$> ls).
Proof.
  induction ls as [|line ls IH]; [done |].
  cbn [mapM fmap list_fmap]. by rewrite format_line_render, IH.
Qed.

(** [getTasks] never throws: it renders the lines it reads. *)
Lemma getTasks_lines r fs :
  FileRepo.getTasks r fs = Some (render <$> FileView.lines r fs).
Proof.
  unfold FileRepo.getTasks, FileView.lines.
  destruct (Stream.ifstream_open (filePath r) fs); [|done].
  apply mapM_format_line.
Qed.

(** A write after bytes already written. *)
Lemma write_after path (acc data : string) fs :
  Stream.write path data (set_files (<[path := acc]> (files fs)) fs)
  = set_files (<[path := acc +:+ data]> (files fs)) fs.
Proof.
  unfold Stream.write, set_files. cbn [files can_read can_write].
  by rewrite lookup_insert_eq, insert_insert_eq.
Qed.

(** [addTask]: the bytes are appended when the stream opens; nothing
    happens when it does not. *)
Lemma addTask_files task r fs :
  FileRepo.addTask task r fs = FileView.added task r fs.
Proof.
  unfold FileRepo.addTask, FileView.added, Stream.ofstream_open, FileView.content.
  destruct (can_write fs (filePath r)); [|done].
  by rewrite !write_after, append_assoc.
Qed.

(** The write loop of [markTaskCompleted]. *)
Lemma write_lines path (acc : string) (ls : list string) fs :
  foldl (λ out line, Stream.write path Str.nl (Stream.write path line out))
        (set_files (<[path := acc]> (files fs)) fs) ls
  = set_files (<[path := acc +:+ join_lines ls]> (files fs)) fs.
Proof.
  revert acc. induction ls as [|line ls IH]; intros acc.
  - cbn. by rewrite append_nil_r.
  - cbn [foldl]. rewrite !write_after, IH, join_lines_cons.
    by rewrite !append_assoc.
Qed.

Lemma alter_as_insert {A} (f : A → A) (l : list A) (i : nat) (x : A) :
  l !! i = Some x → alter f i l = <[i := f x]> l.
Proof.
  revert i. induction l as [|y l IH]; intros [|i] H; try done.
  - by injection H as ->.
  - cbn. f_equal. by apply IH.
Qed.

(** The guarded update of the vector never reads outside it. *)
Lemma guarded_update (index : Z) (ls : list string) :
  (if valid_index index (length ls) then
     line ← ls !! Z.to_nat index;
     line' ← FileRepo.complete_line line;
     Some (<[Z.to_nat index := line']> ls)
   else Some ls) = Some (mark_lines index ls).
Proof.
  unfold mark_lines.
  destruct (valid_index index (length ls)) eqn:E; [|done].
  apply valid_index_spec in E.
  destruct (lookup_lt_is_Some_2 ls (Z.to_nat index)) as [line Hline]; [lia |].
  rewrite Hline. cbn [mbind option_bind].
  rewrite complete_line_completed. cbn [mbind option_bind].
  f_equal. symmetry. by apply alter_as_insert.
Qed.

(** [markTaskCompleted] never throws: when the output stream opens the
    file is rewritten from the vector, and nothing happens when it does
    not. *)
Lemma markTaskCompleted_files (index : Z) r fs :
  FileRepo.markTaskCompleted index r fs = Some (FileView.marked index r fs).
Proof.
  unfold FileRepo.markTaskCompleted, FileView.marked. fold (FileView.lines r fs).
  rewrite guarded_update. cbn [mbind option_bind].
  unfold Stream.ofstream_open.
  destruct (can_write fs (filePath r)); [|done].
  by rewrite write_lines.
Qed.

End FileFacts.

(** ** The file after an operation *)

Section FileSteps.

Implicit Types (r : FileTaskRepository) (fs : FileSystem).

Lemma content_set_files r (data : string) (m : gmap string string) fs :
  FileView.content r (set_files (<[filePath r := data]> m) fs) = data.
Proof. unfold FileView.content. cbn [files set_files]. by rewrite lookup_insert_eq. Qed.

Lemma lines_set_files r (data : string) (m : gmap string string) fs :
  FileView.lines r (set_files (<[filePath r := data]> m) fs) =
    if can_read fs (filePath r) then Stream.read_lines data else [].
Proof.
  unfold FileView.lines, Stream.ifstream_open. cbn [files can_read set_files].
  destruct (can_read fs (filePath r)); [|done]. by rewrite lookup_insert_eq.
Qed.

Lemma can_read_added task r fs :
  can_read (FileView.added task r fs) = can_read fs.
Proof. unfold FileView.added. by destruct (can_write fs (filePath r)). Qed.

Lemma can_write_added task r fs :
  can_write (FileView.added task r fs) = can_write fs.
Proof. unfold FileView.added. by destruct (can_write fs (filePath r)). Qed.

Lemma can_read_marked (index : Z) r fs :
  can_read (FileView.marked index r fs) = can_read fs.
Proof. unfold FileView.marked. by destruct (can_write fs (filePath r)). Qed.

Lemma can_write_marked (index : Z) r fs :
  can_write (FileView.marked index r fs) = can_write fs.
Proof. unfold FileView.marked. by destruct (can_write fs (filePath r)). Qed.

Lemma content_added task r fs :
  can_write fs (filePath r) = true →
  FileView.content r (FileView.added task r fs) =
    FileView.content r fs +:+ task +:+ ",false" +:+ Str.nl.
Proof. intros H. unfold FileView.added. rewrite H. apply content_set_files. Qed.

Lemma content_marked (index : Z) r fs :
  can_write fs (filePath r) = true →
  FileView.content r (FileView.marked index r fs) =
    join_lines (mark_lines index (FileView.lines r fs)).
Proof. intros H. unfold FileView.marked. rewrite H. apply content_set_files. Qed.

Lemma length_mark_lines (index : Z) (ls : list string) :
  length (mark_lines index ls) = length ls.
Proof.
  unfold mark_lines. destruct (valid_index index (length ls)); [|done].
  apply length_alter.
Qed.

Lemma mark_lines_no_newlines (index : Z) (ls : list string) :
  no_newlines ls → no_newlines (mark_lines index ls).
Proof.
  intros H. unfold mark_lines. destruct (valid_index index (length ls)); [|done].
  apply Forall_alter; [done |]. intros line _. apply completed_line_no_newline.
Qed.

Lemma mark_lines_idemp (index : Z) (ls : list string) :
  mark_lines index (mark_lines index ls) = mark_lines index ls.
Proof.
  unfold mark_lines at 1. rewrite length_mark_lines. unfold mark_lines.
  destruct (valid_index index (length ls)); [|done].
  rewrite list_alter_alter_eq. apply list_alter_ext; [|done].
  intros line _. apply completed_line_idemp.
Qed.

Lemma mark_lines_invalid (index : Z) (ls : list string) :
  index < 0 ∨ Z.of_nat (length ls) <= index → mark_lines index ls = ls.
Proof.
  intros H. unfold mark_lines.
  destruct (valid_index index (length ls)) eqn:E; [|done].
  apply valid_index_spec in E. lia.
Qed.

(** The lines a later read sees once [markTaskCompleted] has written. *)
Lemma lines_marked (index : Z) r fs :
  can_write fs (filePath r) = true →
  FileView.lines r (FileView.marked index r fs) =
    mark_lines index (FileView.lines r fs).
Proof.
  intros H. unfold FileView.marked. rewrite H, lines_set_files.
  destruct (can_read fs (filePath r)) eqn:E.
  - apply read_lines_join_lines, mark_lines_no_newlines, lines_no_newlines.
  - rewrite (lines_unreadable _ _ E). unfold mark_lines.
    by destruct (valid_index index (length [])).
Qed.

(** The lines a later read sees once [addTask] has written after an ended
    text. *)
Lemma lines_added task r fs :
  can_write fs (filePath r) = true →
  FileView.ended (FileView.content r fs) = true →
  FileView.lines r (FileView.added task r fs) =
    FileView.lines r fs ++ 
    (if can_read fs (filePath r)
     then Stream.read_lines (task +:+ ",false" +:+ Str.nl) else []).
Proof.
  intros Hw He. unfold FileView.added. rewrite Hw, lines_set_files.
  destruct (can_read fs (filePath r)) eqn:E.
  - by rewrite (lines_readable _ _ E), (read_lines_ended_app _ _ He).
  - by rewrite (lines_unreadable _ _ E).
Qed.

(** The one line of a plain description. *)
Lemma read_lines_plain (task : string) :
  plain task = true →
  Stream.read_lines (task +:+ ",false" +:+ Str.nl) = [task +:+ ",false"].
Proof.
  intros [_ Hnl]%andb_prop.
  rewrite <- append_assoc. unfold Str.nl.
  rewrite read_lines_line; [done |].
  by rewrite no_char_append, Hnl.
Qed.

Lemma render_plain (task : string) :
  plain task = true → render (task +:+ ",false") = "[ ] " +:+ task.
Proof. intros [Hc _]%andb_prop. exact (render_split task "false" Hc). Qed.

Lemma ended_added task r fs :
  FileView.ended (FileView.content r fs) = true →
  FileView.ended (FileView.content r (FileView.added task r fs)) = true.
Proof.
  intros He. destruct (can_write fs (filePath r)) eqn:Hw.
  - rewrite (content_added _ _ _ Hw).
    rewrite <- (append_assoc task). by apply ended_app_nl.
  - unfold FileView.added. by rewrite Hw.
Qed.

Lemma ended_marked (index : Z) r fs :
  FileView.ended (FileView.content r fs) = true →
  FileView.ended (FileView.content r (FileView.marked index r fs)) = true.
Proof.
  intros He. destruct (can_write fs (filePath r)) eqn:Hw.
  - rewrite (content_marked _ _ _ Hw).
    apply ended_join, mark_lines_no_newlines, lines_no_newlines.
  - unfold FileView.marked. by rewrite Hw.
Qed.

End FileSteps.

(** ** Stores of either variant *)

Section StoreFacts.

Lemma getTasks_Mem (r : InMemoryTaskRepository) :
  getTasks (Mem r) = Some (show_task <$> tasks r).
Proof. reflexivity. Qed.

Lemma getTasks_File (r : FileTaskRepository) (fs : FileSystem) :
  getTasks (File r fs) = Some (render <$> FileView.lines r fs).
Proof. apply getTasks_lines. Qed.

Lemma addTask_Mem (task : string) (r : InMemoryTaskRepository) :
  addTask task (Mem r) = Mem (mkInMemory (tasks r ++ [mkTask task false])).
Proof. reflexivity. Qed.

Lemma addTask_File (task : string) (r : FileTaskRepository) (fs : FileSystem) :
  addTask task (File r fs) = File r (FileView.added task r fs).
Proof. cbn. by rewrite addTask_files. Qed.

Lemma markTaskCompleted_Mem (index : Z) (r : InMemoryTaskRepository) :
  markTaskCompleted index (Mem r) =
    Some (Mem (mkInMemory (mark_tasks index (tasks r)))).
Proof.
  cbn. unfold InMemory.markTaskCompleted, mark_tasks.
  destruct (valid_index index (length (tasks r))) eqn:E; [|by destruct r].
  apply valid_index_spec in E.
  destruct (lookup_lt_is_Some_2 (tasks r) (Z.to_nat index)) as [t Ht]; [lia |].
  rewrite Ht. cbn. do 3 f_equal. symmetry.
  by apply (alter_as_insert complete_task).
Qed.

Lemma markTaskCompleted_File (index : Z) (r : FileTaskRepository) (fs : FileSystem) :
  markTaskCompleted index (File r fs) =
    Some (File r (FileView.marked index r fs)).
Proof. cbn. by rewrite markTaskCompleted_files. Qed.

(** No call of the contract throws. *)
Lemma call_total (c : Call) (s : Store) : ∃ s', call c s = Some s'.
Proof.
  destruct c as [task| |index]; unfold call.
  - eauto.
  - destruct s; [rewrite getTasks_Mem | rewrite getTasks_File]; cbn; eauto.
  - destruct s;
      [rewrite markTaskCompleted_Mem | rewrite markTaskCompleted_File]; eauto.
Qed.

Lemma session_total (cs : list Call) (s : Store) : ∃ s', session cs s = Some s'.
Proof.
  revert s. induction cs as [|c cs IH]; intros s; [by exists s |].
  destruct (call_total c s) as [s1 H1]. cbn [session]. rewrite H1. cbn.
  apply IH.
Qed.

End StoreFacts.

(** ** Adding tasks *)

Section AddTask.

Lemma add_all_Mem (descs : list string) (r : InMemoryTaskRepository) :
  add_all descs (Mem r) =
    Mem (mkInMemory (tasks r ++ ((λ d, mkTask d false) <$> descs))).
Proof.
  revert r. induction descs as [|d descs IH]; intros [ts].
  - cbn. by rewrite app_nil_r.
  - unfold add_all in *. cbn [foldl]. rewrite addTask_Mem, IH.
    cbn [tasks fmap list_fmap]. by rewrite <- app_assoc.
Qed.

Lemma add_all_File (descs : list string) (r : FileTaskRepository) (fs : FileSystem) :
  can_read fs (filePath r) = true →
  can_write fs (filePath r) = true →
  FileView.ended (FileView.content r fs) = true →
  Forall (λ d, plain d = true) descs →
  ∃ fs', add_all descs (File r fs) = File r fs'
         ∧ FileView.lines r fs' =
             FileView.lines r fs ++ ((λ d, d +:+ ",false") <$> descs).
Proof.
  intros Hr Hw He Hd. revert fs Hr Hw He.
  induction Hd as [|d descs Hplain _ IH]; intros fs Hr Hw He.
  - exists fs. cbn. by rewrite app_nil_r.
  - destruct (IH (FileView.added d r fs)) as (fs' & Hrun & Hlines).
    + by rewrite can_read_added.
    + by rewrite can_write_added.
    + by apply ended_added.
    + exists fs'. unfold add_all in *. cbn [foldl]. rewrite addTask_File.
      split; [done |]. rewrite Hlines, (lines_added _ _ _ Hw He), Hr.
      rewrite (read_lines_plain _ Hplain). by rewrite <- app_assoc.
Qed.

(** C1, as amended: starting from an empty store whose streams open, the
    listing after a sequence of [addTask] calls has one entry per call, in
    the order of the calls, each "[ ] " followed by the description added;
    for the file-backed variant when no description holds a comma or a line
    end, for the in-memory variant for every description. *)
Theorem C1_added_tasks_listed_in_order (s : Store) (descs : list string) :
  is_empty s = true →
  readable s = true →
  writable s = true →
  Forall (λ d, storable s d = true) descs →
  getTasks (add_all descs s) = Some ((λ d, "[ ] " +:+ d) <$> descs).
Proof.
  destruct s as [[ts]|r fs]; cbn [is_empty readable writable storable].
  - intros Hts _ _ _. destruct ts; [|done].
    rewrite add_all_Mem, getTasks_Mem. cbn [tasks app].
    by rewrite <- list_fmap_compose.
  - intros He%String.eqb_eq Hr Hw Hd.
    destruct (add_all_File descs r fs Hr Hw) as (fs' & -> & Hlines);
      [by rewrite He | done |].
    rewrite getTasks_File, Hlines, (lines_readable _ _ Hr), He.
    rewrite read_lines_empty, app_nil_l, <- list_fmap_compose.
    f_equal. apply Forall_fmap_ext_1.
    eapply Forall_impl; [exact Hd |]. intros d Hplain. by apply render_plain.
Qed.

(** The example of the specification, on a file. *)
Lemma C1_added_tasks_witness :
  getTasks (add_all ["Buy milk"; "Write report"] (file_store ∅))
  = Some ["[ ] Buy milk"; "[ ] Write report"].
Proof.
  apply (C1_added_tasks_listed_in_order (file_store ∅)
           ["Buy milk"; "Write report"]); try reflexivity.
  repeat constructor.
Defined.

(** C1 as stated fails on a file: a description with a comma is cut at the
    comma, a description with a line end becomes two entries, and a task
    added where the file cannot be opened for writing is dropped. *)
Lemma C1_counterexample :
  is_empty (file_store ∅) = true
  ∧ getTasks (add_all ["a,b"] (file_store ∅)) = Some ["[ ] a"]
  ∧ getTasks (add_all ["a,b"] (file_store ∅)) ≠ Some ["[ ] a,b"]
  ∧ getTasks (add_all ["a" +:+ Str.nl +:+ "b"] (file_store ∅))
    = Some ["[ ] a"; "[ ] b"]
  ∧ is_empty (read_only_store ∅) = true
  ∧ getTasks (add_all ["a"] (read_only_store ∅)) = Some [].
Proof. by vm_compute. Qed.

End AddTask.

(** ** Marking a task completed *)

Section MarkTaskCompleted.

Lemma mark_lines_nat (i : nat) (ls : list string) :
  (i < length ls)%nat → mark_lines (Z.of_nat i) ls = alter completed_line i ls.
Proof.
  intros H%valid_index_nat. unfold mark_lines. by rewrite H, Nat2Z.id.
Qed.

Lemma mark_tasks_nat (i : nat) (ts : list Task) :
  (i < length ts)%nat → mark_tasks (Z.of_nat i) ts = alter complete_task i ts.
Proof.
  intros H%valid_index_nat. unfold mark_tasks. by rewrite H, Nat2Z.id.
Qed.

Lemma length_mark_tasks (index : Z) (ts : list Task) :
  length (mark_tasks index ts) = length ts.
Proof.
  unfold mark_tasks. destruct (valid_index index (length ts)); [|done].
  apply length_alter.
Qed.

Lemma mark_tasks_invalid (index : Z) (ts : list Task) :
  index < 0 ∨ Z.of_nat (length ts) <= index → mark_tasks index ts = ts.
Proof.
  intros H. unfold mark_tasks.
  destruct (valid_index index (length ts)) eqn:E; [|done].
  apply valid_index_spec in E. lia.
Qed.

Lemma mark_tasks_idemp (index : Z) (ts : list Task) :
  mark_tasks index (mark_tasks index ts) = mark_tasks index ts.
Proof.
  unfold mark_tasks at 1. rewrite length_mark_tasks. unfold mark_tasks.
  destruct (valid_index index (length ts)); [|done].
  rewrite list_alter_alter_eq. by apply list_alter_ext.
Qed.

(** The description is what follows the four characters of the mark. *)
Lemma drop_display (b : bool) (d : string) : Str.drop 4 (display b d) = d.
Proof. by destruct b. Qed.

Lemma getTasks_total (s : Store) : ∃ l, getTasks s = Some l.
Proof. destruct s; [rewrite getTasks_Mem | rewrite getTasks_File]; eauto. Qed.

(** C2, as amended: in a store that can be written (always, in memory),
    [markTaskCompleted i] for a valid [i] leaves a listing of the same
    length whose entry [i] starts with "[X] ", keeps its description when
    the stored line has a comma (always, in memory), and whose other
    entries are what they were. *)
Theorem C2_mark_valid_index (s : Store) (l : list string) (i : nat) (e : string) :
  writable s = true →
  getTasks s = Some l →
  l !! i = Some e →
  ∃ s' l' e',
    markTaskCompleted (Z.of_nat i) s = Some s'
    ∧ getTasks s' = Some l'
    ∧ length l' = length l
    ∧ l' !! i = Some e'
    ∧ Str.starts_with "[X] " e' = true
    ∧ (has_comma_at s i = true → e' = "[X] " +:+ Str.drop 4 e)
    ∧ ∀ j, j ≠ i → l' !! j = l !! j.
Proof.
  destruct s as [[ts]|r fs]; cbn [writable has_comma_at].
  - intros _. rewrite getTasks_Mem. cbn [tasks]. intros [= <-] He.
    apply list_lookup_fmap_Some in He as (t & -> & Ht).
    pose proof (lookup_lt_Some _ _ _ Ht) as Hlt.
    eexists _, _, _.
    split; [by rewrite markTaskCompleted_Mem |].
    split; [by rewrite getTasks_Mem |].
    cbn [tasks]. rewrite (mark_tasks_nat _ _ Hlt).
    split; [by rewrite !length_fmap, length_alter |].
    split; [by rewrite list_lookup_fmap, list_lookup_alter_eq, Ht |].
    split; [done |]. split.
    + intros _. unfold show_task at 2. by rewrite drop_display.
    + intros j Hj. by rewrite !list_lookup_fmap, list_lookup_alter_ne.
  - intros Hw. rewrite getTasks_File. intros [= <-] He.
    apply list_lookup_fmap_Some in He as (line & -> & Hline).
    pose proof (lookup_lt_Some _ _ _ Hline) as Hlt.
    eexists _, _, _.
    split; [by rewrite markTaskCompleted_File |].
    split; [by rewrite getTasks_File |].
    rewrite (lines_marked _ _ _ Hw), (mark_lines_nat _ _ Hlt).
    split; [by rewrite !length_fmap, length_alter |].
    split; [by rewrite list_lookup_fmap, list_lookup_alter_eq, Hline |].
    split; [apply render_completed_line |]. split.
    + rewrite Hline. intros Hcomma%negb_true_iff.
      destruct (line_cases line) as [(d & sfx & -> & Hd)|H]; [|congruence].
      rewrite (completed_line_split _ _ Hd), !(render_split _ _ Hd).
      by rewrite drop_display.
    + intros j Hj. by rewrite !list_lookup_fmap, list_lookup_alter_ne.
Qed.

(** The example of the specification, on a file. *)
Lemma C2_mark_valid_index_witness :
  let s := file_store {["tasks.txt" := "Buy milk,false" +:+ Str.nl +:+
                                       "Write report,false" +:+ Str.nl]} in
  ∃ s' l',
    markTaskCompleted 0 s = Some s'
    ∧ getTasks s' = Some l'
    ∧ l' !! 0%nat = Some "[X] Buy milk"
    ∧ l' !! 1%nat = Some "[ ] Write report".
Proof.
  intros s.
  destruct (C2_mark_valid_index s ["[ ] Buy milk"; "[ ] Write report"]
              0 "[ ] Buy milk")
    as (s' & l' & e' & Hmark & Hget & _ & He' & _ & Hdesc & Hothers);
    [by vm_compute .. |].
  exists s', l'. split; [exact Hmark |]. split; [exact Hget |].
  split; [rewrite He'; f_equal; apply Hdesc; by vm_compute |].
  by rewrite Hothers.
Defined.

(** C2 as stated fails on a file: a line without a comma is replaced by
    "true" and its description is lost (such a line is also what a
    description with a line end leaves behind), and nothing is marked where
    the file cannot be opened for writing. *)
Lemma C2_counterexample :
  let s := file_store {["tasks.txt" := "abc" +:+ Str.nl]} in
  let t := add_all ["abc" +:+ Str.nl +:+ "def"] (file_store ∅) in
  let u := read_only_store {["tasks.txt" := "a,false" +:+ Str.nl]} in
  getTasks s = Some ["[ ] abc"]
  ∧ (markTaskCompleted 0 s ≫= getTasks) = Some ["[X] true"]
  ∧ getTasks t = Some ["[ ] abc"; "[ ] def"]
  ∧ (markTaskCompleted 0 t ≫= getTasks) = Some ["[X] true"; "[ ] def"]
  ∧ getTasks u = Some ["[ ] a"]
  ∧ (markTaskCompleted 0 u ≫= getTasks) = Some ["[ ] a"].
Proof. by vm_compute. Qed.

(** C3: [markTaskCompleted] with an index outside the listing does not
    throw and leaves the listing as it was. *)
Theorem C3_mark_out_of_bounds (s : Store) (l : list string) (i : Z) :
  getTasks s = Some l →
  i < 0 ∨ Z.of_nat (length l) <= i →
  ∃ s', markTaskCompleted i s = Some s' ∧ getTasks s' = Some l.
Proof.
  destruct s as [[ts]|r fs].
  - rewrite getTasks_Mem. cbn [tasks]. intros [= <-] Hi.
    rewrite length_fmap in Hi.
    eexists. split; [by rewrite markTaskCompleted_Mem |].
    rewrite getTasks_Mem. cbn [tasks].
    by rewrite (mark_tasks_invalid _ _ Hi).
  - rewrite getTasks_File. intros [= <-] Hi. rewrite length_fmap in Hi.
    eexists. split; [by rewrite markTaskCompleted_File |].
    rewrite getTasks_File. do 2 f_equal.
    destruct (can_write fs (filePath r)) eqn:Hw.
    + by rewrite (lines_marked _ _ _ Hw), (mark_lines_invalid _ _ Hi).
    + unfold FileView.marked. by rewrite Hw.
Qed.

(** The bounds example of the specification, on a file. *)
Lemma C3_mark_out_of_bounds_witness :
  ∃ s',
    markTaskCompleted 5
      (file_store {["tasks.txt" := "Buy milk,false" +:+ Str.nl +:+
                                   "Write report,false" +:+ Str.nl]}) = Some s'
    ∧ getTasks s' = Some ["[ ] Buy milk"; "[ ] Write report"].
Proof.
  apply (C3_mark_out_of_bounds
           (file_store {["tasks.txt" := "Buy milk,false" +:+ Str.nl +:+
                                        "Write report,false" +:+ Str.nl]})
           ["[ ] Buy milk"; "[ ] Write report"] 5);
    [by vm_compute | right; cbn; lia].
Defined.

Lemma marked_idemp (index : Z) (r : FileTaskRepository) (fs : FileSystem) :
  FileView.marked index r (FileView.marked index r fs) = FileView.marked index r fs.
Proof.
  destruct (can_write fs (filePath r)) eqn:Hw.
  - unfold FileView.marked at 1. rewrite can_write_marked, Hw.
    rewrite (lines_marked _ _ _ Hw), mark_lines_idemp.
    unfold FileView.marked. rewrite Hw. unfold set_files.
    cbn [files can_read can_write]. by rewrite insert_insert_eq.
  - unfold FileView.marked. by rewrite !Hw.
Qed.

(** C8: a second [markTaskCompleted i] right after the first changes
    nothing: the store, hence the file and every later listing, is the one
    the first call left. *)
Theorem C8_mark_twice_is_mark_once (s : Store) (i : Z) :
  ∃ s', markTaskCompleted i s = Some s' ∧ markTaskCompleted i s' = Some s'.
Proof.
  destruct s as [[ts]|r fs]; eexists.
  - split; [by rewrite markTaskCompleted_Mem |].
    rewrite markTaskCompleted_Mem. cbn [tasks]. by rewrite mark_tasks_idemp.
  - split; [by rewrite markTaskCompleted_File |].
    rewrite markTaskCompleted_File. by rewrite marked_idemp.
Qed.

(** C10, as amended: when the file can be opened for writing, every call
    of [markTaskCompleted], whatever the index, leaves at the path the
    lines it read, the one at a valid index completed, each followed by a
    line end; a file that was missing or could not be read is left empty;
    no other path is touched. *)
Theorem C10_mark_rewrites_file (i : Z) (r : FileTaskRepository) (fs : FileSystem) :
  can_write fs (filePath r) = true →
  ∃ fs',
    FileRepo.markTaskCompleted i r fs = Some fs'
    ∧ files fs' !! filePath r =
        Some (join_lines (mark_lines i (FileView.lines r fs)))
    ∧ (i < 0 ∨ Z.of_nat (length (FileView.lines r fs)) <= i →
       files fs' !! filePath r = Some (join_lines (FileView.lines r fs)))
    ∧ (Stream.ifstream_open (filePath r) fs = None →
       files fs' !! filePath r = Some "")
    ∧ ∀ path, path ≠ filePath r → files fs' !! path = files fs !! path.
Proof.
  intros Hw. eexists. split; [by rewrite markTaskCompleted_files |].
  unfold FileView.marked. rewrite Hw.
  cbn [files set_files]. rewrite lookup_insert_eq.
  split; [done |]. split; [|split].
  - intros Hi. by rewrite (mark_lines_invalid _ _ Hi).
  - intros Hopen. unfold FileView.lines. rewrite Hopen. unfold mark_lines.
    by destruct (valid_index i (length [])).
  - intros path Hpath. by rewrite lookup_insert_ne.
Qed.

(** A missing file is created empty. *)
Lemma C10_mark_rewrites_file_witness :
  ∃ fs',
    FileRepo.markTaskCompleted 3 (mkFileRepo "tasks.txt")
      (mkFS ∅ (λ _, true) (λ _, true)) = Some fs'
    ∧ files fs' !! "tasks.txt" = Some "".
Proof.
  destruct (C10_mark_rewrites_file 3 (mkFileRepo "tasks.txt")
              (mkFS ∅ (λ _, true) (λ _, true)) eq_refl)
    as (fs' & Hrun & _ & _ & Hempty & _).
  exists fs'. split; [exact Hrun | exact (Hempty eq_refl)].
Defined.

(** C10 as stated fails: for a valid index the file is not rewritten with
    the lines read, one of them is changed; and where the file cannot be
    opened for writing a missing file is not created and an existing one is
    not rewritten. *)
Lemma C10_counterexample :
  let r := mkFileRepo "tasks.txt" in
  let open := mkFS {["tasks.txt" := "a,false" +:+ Str.nl]} (λ _, true) (λ _, true) in
  let missing := mkFS ∅ (λ _, true) (λ _, false) in
  let locked := mkFS {["tasks.txt" := "a,false"]} (λ _, true) (λ _, false) in
  FileView.lines r open = ["a,false"]
  ∧ (files <$> FileRepo.markTaskCompleted 0 r open)
    = Some {["tasks.txt" := "a,true" +:+ Str.nl]}
  ∧ (files <$> FileRepo.markTaskCompleted 0 r missing) = Some ∅
  ∧ (files <$> FileRepo.markTaskCompleted 0 r locked)
    = Some {["tasks.txt" := "a,false"]}.
Proof. by vm_compute. Qed.

End MarkTaskCompleted.

(** ** The two variants side by side *)

Section Variants.

Implicit Types (r : FileTaskRepository) (fs : FileSystem) (ts : list Task).

Lemma encode_split (t : Task) :
  encode t = description t
             +:+ String Str.comma (if completed t then "true" else "false").
Proof. reflexivity. Qed.

Lemma encode_no_newline (t : Task) :
  plain (description t) = true → Str.no_char Str.newline (encode t) = true.
Proof.
  intros [_ H]%andb_prop. rewrite encode_split, no_char_append, H.
  by destruct (completed t).
Qed.

Lemma render_encode (t : Task) :
  plain (description t) = true → render (encode t) = show_task t.
Proof.
  intros [H _]%andb_prop. rewrite encode_split, (render_split _ _ H).
  unfold show_task. by destruct (completed t).
Qed.

Lemma completed_line_encode (t : Task) :
  plain (description t) = true →
  completed_line (encode t) = encode (complete_task t).
Proof.
  intros [H _]%andb_prop. by rewrite encode_split, (completed_line_split _ _ H).
Qed.

Lemma encode_no_newlines ts :
  Forall (λ t, plain (description t) = true) ts → no_newlines (encode <$> ts).
Proof.
  intros H. apply Forall_fmap. eapply Forall_impl; [exact H |].
  intros t. apply encode_no_newline.
Qed.

Lemma sim_lines ts r fs : sim ts r fs → FileView.lines r fs = encode <$> ts.
Proof.
  intros (Hr & _ & Hc & Hp). rewrite (lines_readable _ _ Hr), Hc.
  by apply read_lines_join_lines, encode_no_newlines.
Qed.

Lemma sim_getTasks ts r fs :
  sim ts r fs → getTasks (File r fs) = getTasks (Mem (mkInMemory ts)).
Proof.
  intros H. rewrite getTasks_File, getTasks_Mem, (sim_lines _ _ _ H).
  cbn [tasks]. rewrite <- list_fmap_compose. f_equal.
  apply Forall_fmap_ext_1. destruct H as (_ & _ & _ & Hp).
  eapply Forall_impl; [exact Hp |]. intros t. apply render_encode.
Qed.

Lemma sim_empty r fs :
  can_read fs (filePath r) = true →
  can_write fs (filePath r) = true →
  is_empty (File r fs) = true →
  sim [] r fs.
Proof.
  intros Hr Hw He%String.eqb_eq. by repeat split.
Qed.

Lemma sim_added (task : string) ts r fs :
  plain task = true →
  sim ts r fs →
  sim (ts ++ [mkTask task false]) r (FileView.added task r fs).
Proof.
  intros Hplain (Hr & Hw & Hc & Hp).
  split; [by rewrite can_read_added |].
  split; [by rewrite can_write_added |]. split.
  - rewrite (content_added _ _ _ Hw), Hc, fmap_app, join_lines_app.
    f_equal. cbn [fmap list_fmap]. rewrite join_lines_cons, encode_split.
    cbn [description completed join_lines foldr]. by rewrite append_assoc.
  - apply Forall_app. split; [done |]. by constructor.
Qed.

Lemma mark_lines_encode (index : Z) ts :
  Forall (λ t, plain (description t) = true) ts →
  mark_lines index (encode <$> ts) = encode <$> mark_tasks index ts.
Proof.
  intros Hp. unfold mark_lines, mark_tasks. rewrite length_fmap.
  destruct (valid_index index (length ts)); [|done].
  symmetry. apply list_fmap_alter.
  eapply Forall_impl; [exact Hp |]. intros t Ht.
  symmetry. by apply completed_line_encode.
Qed.

Lemma mark_tasks_plain (index : Z) ts :
  Forall (λ t, plain (description t) = true) ts →
  Forall (λ t, plain (description t) = true) (mark_tasks index ts).
Proof.
  intros Hp. unfold mark_tasks.
  destruct (valid_index index (length ts)); [|done].
  by apply Forall_alter.
Qed.

Lemma sim_marked (index : Z) ts r fs :
  sim ts r fs → sim (mark_tasks index ts) r (FileView.marked index r fs).
Proof.
  intros H. pose proof (sim_lines _ _ _ H) as Hl.
  destruct H as (Hr & Hw & Hc & Hp).
  split; [by rewrite can_read_marked |].
  split; [by rewrite can_write_marked |]. split.
  - by rewrite (content_marked _ _ _ Hw), Hl, mark_lines_encode.
  - by apply mark_tasks_plain.
Qed.

(** One call keeps the two variants in step. *)
Lemma sim_call (c : Call) ts r fs :
  plain_call c = true →
  sim ts r fs →
  ∃ ts' fs',
    call c (Mem (mkInMemory ts)) = Some (Mem (mkInMemory ts'))
    ∧ call c (File r fs) = Some (File r fs')
    ∧ sim ts' r fs'.
Proof.
  intros Hc H. destruct c as [task| |index]; unfold call.
  - exists (ts ++ [mkTask task false]), (FileView.added task r fs).
    rewrite addTask_Mem, addTask_File. by split; [|split; [|apply sim_added]].
  - exists ts, fs. by rewrite getTasks_Mem, getTasks_File.
  - exists (mark_tasks index ts), (FileView.marked index r fs).
    rewrite markTaskCompleted_Mem, markTaskCompleted_File.
    by split; [|split; [|apply sim_marked]].
Qed.

Lemma sim_session (cs : list Call) ts r fs :
  forallb plain_call cs = true →
  sim ts r fs →
  ∃ ts' fs',
    session cs (Mem (mkInMemory ts)) = Some (Mem (mkInMemory ts'))
    ∧ session cs (File r fs) = Some (File r fs')
    ∧ sim ts' r fs'.
Proof.
  revert ts fs. induction cs as [|c cs IH]; intros ts fs Hcs H.
  - by exists ts, fs.
  - cbn [forallb] in Hcs. apply andb_prop in Hcs as [Hc Hcs].
    destruct (sim_call c _ _ _ Hc H) as (ts1 & fs1 & Hm & Hf & H1).
    destruct (IH _ _ Hcs H1) as (ts' & fs' & Hm' & Hf' & H').
    exists ts', fs'. cbn [session]. rewrite Hm, Hf. by cbn.
Qed.

(** C5, as amended: from an empty vector and from a missing or empty file
    that opens for reading and for writing, a sequence of calls whose
    added descriptions hold no comma and no line end leaves the two
    variants with the same listing. *)
Theorem C5_variants_agree (cs : list Call) (r : FileTaskRepository) (fs : FileSystem) :
  forallb plain_call cs = true →
  can_read fs (filePath r) = true →
  can_write fs (filePath r) = true →
  is_empty (File r fs) = true →
  ∃ m f l,
    session cs (Mem InMemory.empty) = Some m
    ∧ session cs (File r fs) = Some f
    ∧ getTasks m = Some l
    ∧ getTasks f = Some l.
Proof.
  intros Hcs Hr Hw He.
  destruct (sim_session cs [] r fs Hcs (sim_empty _ _ Hr Hw He))
    as (ts' & fs' & Hm & Hf & H').
  exists (Mem (mkInMemory ts')), (File r fs'), (show_task <$> ts').
  split; [exact Hm |]. split; [exact Hf |].
  split; [apply getTasks_Mem |]. by rewrite (sim_getTasks _ _ _ H').
Qed.

(** The scenario of the specification, on both variants. *)
Lemma C5_variants_agree_witness :
  let cs := [AddTask "Buy milk"; AddTask "Write report"; MarkTaskCompleted 0] in
  ∃ m f l,
    session cs (Mem InMemory.empty) = Some m
    ∧ session cs (file_store ∅) = Some f
    ∧ getTasks m = Some l
    ∧ getTasks f = Some l.
Proof.
  exact (C5_variants_agree
           [AddTask "Buy milk"; AddTask "Write report"; MarkTaskCompleted 0]
           (mkFileRepo "tasks.txt") (mkFS ∅ (λ _, true) (λ _, true))
           eq_refl eq_refl eq_refl eq_refl).
Defined.

(** C5 as stated fails: a description with a comma is kept whole in memory
    and cut at the comma on a file; one with a line end is one entry in
    memory and two on a file. *)
Lemma C5_counterexample :
  (session [AddTask "a,b"] (Mem InMemory.empty) ≫= getTasks) = Some ["[ ] a,b"]
  ∧ (session [AddTask "a,b"] (file_store ∅) ≫= getTasks) = Some ["[ ] a"]
  ∧ (session [AddTask ("a" +:+ Str.nl +:+ "b"); MarkTaskCompleted 0]
       (Mem InMemory.empty) ≫= getTasks)
    = Some ["[X] a" +:+ Str.nl +:+ "b"]
  ∧ (session [AddTask ("a" +:+ Str.nl +:+ "b"); MarkTaskCompleted 0]
       (file_store ∅) ≫= getTasks)
    = Some ["[X] true"; "[ ] b"].
Proof. by vm_compute. Qed.

End Variants.

(** ** Sessions: what every call keeps *)

Section Sessions.

Implicit Types (r : FileTaskRepository) (fs : FileSystem) (s : Store).

(** An in-place update that keeps a property of the elements keeps it at
    every position. *)
Lemma lookup_alter_keeps {A} (P : A → Prop) (f : A → A) (k i : nat)
    (l : list A) (x : A) :
  (∀ y, P y → P (f y)) →
  l !! i = Some x → P x →
  ∃ y, alter f k l !! i = Some y ∧ P y.
Proof.
  intros Hf Hx HP. destruct (decide (k = i)) as [->|Hne].
  - exists (f x). rewrite list_lookup_alter_eq, Hx. auto.
  - exists x. by rewrite list_lookup_alter_ne.
Qed.

Lemma show_complete_task (t : Task) :
  Str.starts_with "[X] " (show_task t) = true →
  Str.starts_with "[X] " (show_task (complete_task t)) = true.
Proof. done. Qed.

Lemma render_completed_line_keeps (line : string) :
  Str.starts_with "[X] " (render line) = true →
  Str.starts_with "[X] " (render (completed_line line)) = true.
Proof. intros _. apply render_completed_line. Qed.

(** The end of the last line is kept by every call. *)
Lemma well_ended_call (c : Call) s s' :
  well_ended s = true → call c s = Some s' → well_ended s' = true.
Proof.
  destruct c as [task| |index]; unfold call.
  - destruct s as [?|r fs].
    + by intros _ [= <-].
    + rewrite addTask_File. intros H [= <-]. by apply ended_added.
  - destruct (getTasks s); [|done]. by intros H [= <-].
  - destruct s as [?|r fs].
    + rewrite markTaskCompleted_Mem. by intros _ [= <-].
    + rewrite markTaskCompleted_File. intros H [= <-]. by apply ended_marked.
Qed.

(** An entry shown as completed is shown so after any one call. *)
Lemma shows_completed_call (c : Call) s (i : nat) :
  well_ended s = true →
  shows_completed s i →
  ∃ s', call c s = Some s' ∧ shows_completed s' i.
Proof.
  intros He (l & e & Hget & Hi & HX).
  destruct c as [task| |index]; unfold call.
  - eexists. split; [done |]. unfold shows_completed.
    destruct s as [[ts]|r fs].
    + rewrite getTasks_Mem in Hget. injection Hget as <-.
      exists (show_task <$> ts ++ [mkTask task false]), e.
      rewrite addTask_Mem, getTasks_Mem. cbn [tasks].
      split; [done |]. split; [|done].
      rewrite fmap_app, lookup_app_l; [done |]. by eapply lookup_lt_Some.
    + rewrite getTasks_File in Hget. injection Hget as <-.
      rewrite addTask_File, getTasks_File.
      destruct (can_write fs (filePath r)) eqn:Hw.
      * eexists _, e. split; [done |]. split; [|done].
        rewrite (lines_added _ _ _ Hw He), fmap_app, lookup_app_l; [done |].
        by eapply lookup_lt_Some.
      * exists (render <$> FileView.lines r fs), e.
        unfold FileView.added. by rewrite Hw.
  - rewrite Hget. cbn. exists s. split; [done |]. by exists l, e.
  - destruct s as [[ts]|r fs].
    + rewrite getTasks_Mem in Hget. injection Hget as <-.
      apply list_lookup_fmap_Some in Hi as (t & -> & Ht).
      eexists. rewrite markTaskCompleted_Mem. split; [done |].
      unfold shows_completed. rewrite getTasks_Mem. cbn [tasks].
      assert (∃ t', mark_tasks index ts !! i = Some t'
                    ∧ Str.starts_with "[X] " (show_task t') = true)
        as (t' & Ht' & HX').
      { unfold mark_tasks. destruct (valid_index index (length ts)); [|eauto].
        by apply (lookup_alter_keeps
                    (λ t, Str.starts_with "[X] " (show_task t) = true)) with t. }
      eexists _, _. split; [done |].
      by rewrite list_lookup_fmap, Ht'.
    + rewrite getTasks_File in Hget. injection Hget as <-.
      apply list_lookup_fmap_Some in Hi as (line & -> & Hline).
      eexists. rewrite markTaskCompleted_File. split; [done |].
      unfold shows_completed. rewrite getTasks_File.
      destruct (can_write fs (filePath r)) eqn:Hw.
      * rewrite (lines_marked _ _ _ Hw).
        assert (∃ line', mark_lines index (FileView.lines r fs) !! i = Some line'
                         ∧ Str.starts_with "[X] " (render line') = true)
          as (line' & Hline' & HX').
        { unfold mark_lines.
          destruct (valid_index index (length (FileView.lines r fs))); [|eauto].
          apply (lookup_alter_keeps
                   (λ x, Str.starts_with "[X] " (render x) = true)) with line;
            [apply render_completed_line_keeps | done | done]. }
        eexists _, _. split; [done |].
        by rewrite list_lookup_fmap, Hline'.
      * unfold FileView.marked. rewrite Hw.
        eexists _, _. split; [done |].
        by rewrite list_lookup_fmap, Hline.
Qed.

(** C7, as amended: in a store whose backing text, if any, ends its last
    line (as every text the store writes does), an entry the listing shows
    as "[X] " is shown as "[X] " after any sequence of calls of the
    contract. *)
Theorem C7_completion_is_monotonic (cs : list Call) (s : Store) (i : nat) :
  well_ended s = true →
  shows_completed s i →
  ∃ s', session cs s = Some s' ∧ shows_completed s' i.
Proof.
  revert s. induction cs as [|c cs IH]; intros s He H.
  - by exists s.
  - destruct (shows_completed_call c s i He H) as (s1 & Hcall & H1).
    destruct (IH s1 (well_ended_call _ _ _ He Hcall) H1) as (s' & Hrun & H').
    exists s'. cbn [session]. rewrite Hcall. by cbn.
Qed.

(** A completed task stays completed through two more calls. *)
Lemma C7_completion_is_monotonic_witness :
  let s := file_store {["tasks.txt" := "Buy milk,true" +:+ Str.nl]} in
  ∃ s',
    session [AddTask "Write report"; MarkTaskCompleted 1; GetTasks] s = Some s'
    ∧ shows_completed s' 0.
Proof.
  intros s.
  apply (C7_completion_is_monotonic
           [AddTask "Write report"; MarkTaskCompleted 1; GetTasks] s 0).
  - by vm_compute.
  - exists ["[X] Buy milk"], "[X] Buy milk". by vm_compute.
Defined.

(** C7 as stated fails on a file whose last line is not ended: the bytes
    [addTask] appends join that line, and its flag no longer reads
    "true". *)
Lemma C7_counterexample :
  let s := file_store {["tasks.txt" := "a,true"]} in
  getTasks s = Some ["[X] a"]
  ∧ getTasks (addTask "b" s) = Some ["[ ] a"]
  ∧ ¬ shows_completed (addTask "b" s) 0.
Proof.
  split; [by vm_compute |]. split; [by vm_compute |].
  intros (l & e & Hget & Hi & HX). vm_compute in Hget.
  injection Hget as <-. injection Hi as <-. by vm_compute in HX.
Qed.

(** Every call on a file-backed store leaves a file-backed store on the
    same object. *)
Lemma session_File (cs : list Call) r fs :
  ∃ fs', session cs (File r fs) = Some (File r fs').
Proof.
  revert fs. induction cs as [|c cs IH]; intros fs; [by exists fs |].
  cbn [session]. destruct c as [task| |index]; unfold call.
  - rewrite addTask_File. cbn. apply IH.
  - rewrite getTasks_File. cbn. apply IH.
  - rewrite markTaskCompleted_File. cbn. apply IH.
Qed.

(** C4: after any session through one [FileTaskRepository], an object
    freshly constructed on the same path lists what the first object
    lists. *)
Theorem C4_fresh_instance_lists_the_same (cs : list Call) r fs :
  ∃ fs',
    session cs (File r fs) = Some (File r fs')
    ∧ getTasks (File (new_FileTaskRepository (filePath r)) fs')
      = getTasks (File r fs').
Proof.
  destruct (session_File cs r fs) as [fs' H]. exists fs'.
  split; [exact H |]. by destruct r.
Qed.

(** C9: [getTasks] on a path that has no file, or that cannot be opened
    for reading, returns the empty listing and does not throw. *)
Theorem C9_missing_file_lists_nothing r fs :
  files fs !! filePath r = None ∨ can_read fs (filePath r) = false →
  getTasks (File r fs) = Some [].
Proof.
  intros H. cbn. unfold FileRepo.getTasks, Stream.ifstream_open.
  destruct H as [-> | ->]; [by destruct (can_read fs (filePath r)) | done].
Qed.

(** No file at the path; and a file that cannot be read. *)
Lemma C9_missing_file_witness :
  getTasks (file_store ∅) = Some []
  ∧ getTasks (File (mkFileRepo "tasks.txt")
                (mkFS {["tasks.txt" := "a,false" +:+ Str.nl]}
                      (λ _, false) (λ _, true))) = Some [].
Proof.
  split.
  - apply (C9_missing_file_lists_nothing (mkFileRepo "tasks.txt")
             (mkFS ∅ (λ _, true) (λ _, true))). by left.
  - apply (C9_missing_file_lists_nothing (mkFileRepo "tasks.txt")
             (mkFS {["tasks.txt" := "a,false" +:+ Str.nl]}
                   (λ _, false) (λ _, true))). by right.
Defined.

End Sessions.

(** ** The line format *)

Section LineFormat.

Implicit Types (r : FileTaskRepository) (fs : FileSystem).

(** C6, as amended.  Decoding: [getTasks] gives one entry per line read, and
    a line that splits at its first comma into a description and a suffix
    gives "[X] " and the description when the suffix is "true", "[ ] " and
    the description otherwise.  Appending: when the file can be opened for
    writing, [addTask] leaves the bytes that were there followed by the
    description, ",false" and a line end, and no other path is touched;
    when the bytes that were there end their last line, the lines read
    before are read again, followed by those of the new bytes. *)
Theorem C6_line_format (task : string) r fs :
  (∀ data,
     Stream.ifstream_open (filePath r) fs = Some data →
     ∃ out,
       FileRepo.getTasks r fs = Some out
       ∧ length out = length (Stream.read_lines data)
       ∧ ∀ (k : nat) (d sfx : string),
           Stream.read_lines data !! k = Some (d +:+ "," +:+ sfx) →
           Str.no_char Str.comma d = true →
           out !! k = Some (if String.eqb sfx "true"
                            then "[X] " +:+ d else "[ ] " +:+ d))
  ∧ (can_write fs (filePath r) = true →
     files (FileRepo.addTask task r fs) !! filePath r
       = Some (FileView.content r fs +:+ task +:+ ",false" +:+ Str.nl)
     ∧ (∀ path, path ≠ filePath r →
          files (FileRepo.addTask task r fs) !! path = files fs !! path)
     ∧ (FileView.ended (FileView.content r fs) = true →
        Stream.read_lines (FileView.content r fs +:+ task +:+ ",false" +:+ Str.nl)
        = Stream.read_lines (FileView.content r fs)
          ++ Stream.read_lines (task +:+ ",false" +:+ Str.nl))).
Proof.
  split.
  - intros data Hopen. exists (render <$> Stream.read_lines data).
    split; [|split].
    + rewrite getTasks_lines. unfold FileView.lines. by rewrite Hopen.
    + apply length_fmap.
    + intros k d sfx Hk Hd. rewrite list_lookup_fmap, Hk. cbn [fmap option_fmap option_map].
      f_equal. exact (render_split d sfx Hd).
  - intros Hw. rewrite addTask_files. unfold FileView.added. rewrite Hw.
    cbn [files set_files]. split; [apply lookup_insert_eq |]. split.
    + intros path Hpath. by rewrite lookup_insert_ne.
    + apply read_lines_ended_app.
Qed.

(** A file of two lines decoded, and a task appended to it. *)
Lemma C6_line_format_witness :
  let r := mkFileRepo "tasks.txt" in
  let fs := mkFS {["tasks.txt" := "Buy milk,true" +:+ Str.nl +:+
                                  "Write report,false" +:+ Str.nl]}
                 (λ _, true) (λ _, true) in
  (∃ out, FileRepo.getTasks r fs = Some out
          ∧ out !! 0%nat = Some "[X] Buy milk"
          ∧ out !! 1%nat = Some "[ ] Write report")
  ∧ files (FileRepo.addTask "Call Ann" r fs) !! "tasks.txt"
    = Some ("Buy milk,true" +:+ Str.nl +:+ "Write report,false" +:+ Str.nl
            +:+ "Call Ann,false" +:+ Str.nl).
Proof.
  intros r fs. destruct (C6_line_format "Call Ann" r fs) as [Hdecode Happend].
  split.
  - destruct (Hdecode _ eq_refl) as (out & Hget & _ & Hline).
    exists out. split; [exact Hget |]. split.
    + exact (Hline 0%nat "Buy milk" "true" eq_refl eq_refl).
    + exact (Hline 1%nat "Write report" "false" eq_refl eq_refl).
  - exact (proj1 (Happend eq_refl)).
Defined.

(** C6 as stated fails: a line "true" without a comma has nothing after a
    first comma and yet is shown as completed; where the file cannot be
    opened for writing [addTask] writes nothing; and after a last line that
    is not ended the new bytes change that line. *)
Lemma C6_counterexample :
  let r := mkFileRepo "tasks.txt" in
  let bare := mkFS {["tasks.txt" := "true" +:+ Str.nl]} (λ _, true) (λ _, true) in
  let locked := mkFS ∅ (λ _, true) (λ _, false) in
  let open := mkFS {["tasks.txt" := "a,true"]} (λ _, true) (λ _, true) in
  Str.find Str.comma "true" = None
  ∧ FileRepo.getTasks r bare = Some ["[X] true"]
  ∧ files (FileRepo.addTask "b" r locked) !! "tasks.txt" = None
  ∧ FileView.lines r open = ["a,true"]
  ∧ FileView.lines r (FileRepo.addTask "b" r open) = ["a,trueb,false"].
Proof. by vm_compute. Qed.

End LineFormat.

(** ** The scenarios of the specification *)

Section Scenarios.

Example scenario_in_memory :
  (session buy_and_write (Mem InMemory.empty) ≫= getTasks)
  = Some ["[X] Buy milk"; "[ ] Write report"].
Proof. reflexivity. Qed.

Example scenario_on_file :
  (session buy_and_write (file_store ∅) ≫= getTasks)
  = Some ["[X] Buy milk"; "[ ] Write report"].
Proof. by vm_compute. Qed.

Example scenario_file_bytes :
  (session buy_and_write (file_store ∅)
     ≫= λ s, match s with
              | File r fs => files fs !! filePath r
              | Mem _ => None
              end)
  = Some ("Buy milk,true" +:+ Str.nl +:+ "Write report,false" +:+ Str.nl).
Proof. by vm_compute. Qed.

Example scenario_bounds :
  (session [AddTask "Buy milk"; AddTask "Write report"; MarkTaskCompleted 5]
     (file_store ∅) ≫= getTasks)
  = Some ["[ ] Buy milk"; "[ ] Write report"].
Proof. by vm_compute. Qed.

Example scenario_missing_file : getTasks (file_store ∅) = Some [].
Proof. reflexivity. Qed.

End Scenarios.

(** ** More on the two repositories *)

Section Repositories.

Implicit Types (r : FileTaskRepository) (fs : FileSystem) (s : Store).

(** X1.  No sequence of calls throws, whatever the store holds: [substr] is
    never given a start beyond the end of a line and no vector is read
    outside its bounds; the listing can be taken afterwards. *)
Theorem no_session_throws (cs : list Call) s :
  ∃ s' l, session cs s = Some s' ∧ getTasks s' = Some l.
Proof.
  destruct (session_total cs s) as [s' Hrun].
  destruct (getTasks_total s') as [l Hget]. by exists s', l.
Qed.

Lemma files_added_other (task : string) r fs (path : string) :
  path ≠ filePath r →
  files (FileView.added task r fs) !! path = files fs !! path.
Proof.
  intros Hpath. unfold FileView.added.
  destruct (can_write fs (filePath r)); [|done].
  cbn [files set_files]. by rewrite lookup_insert_ne.
Qed.

Lemma files_marked_other (index : Z) r fs (path : string) :
  path ≠ filePath r →
  files (FileView.marked index r fs) !! path = files fs !! path.
Proof.
  intros Hpath. unfold FileView.marked.
  destruct (can_write fs (filePath r)); [|done].
  cbn [files set_files]. by rewrite lookup_insert_ne.
Qed.

(** What one call leaves of a file system. *)
Lemma call_File (c : Call) r fs :
  ∃ fs',
    call c (File r fs) = Some (File r fs')
    ∧ can_read fs' = can_read fs
    ∧ can_write fs' = can_write fs
    ∧ ∀ path, path ≠ filePath r → files fs' !! path = files fs !! path.
Proof.
  destruct c as [task| |index]; unfold call.
  - exists (FileView.added task r fs). rewrite addTask_File.
    split; [done |]. split; [apply can_read_added |].
    split; [apply can_write_added |]. intros. by apply files_added_other.
  - exists fs. by rewrite getTasks_File.
  - exists (FileView.marked index r fs). rewrite markTaskCompleted_File.
    split; [done |]. split; [apply can_read_marked |].
    split; [apply can_write_marked |]. intros. by apply files_marked_other.
Qed.

(** X2.  A session on a file-backed repository touches the file at its own
    path only: every other file is as it was, and what can be opened does
    not change. *)
Theorem session_touches_one_file (cs : list Call) r fs :
  ∃ fs',
    session cs (File r fs) = Some (File r fs')
    ∧ can_read fs' = can_read fs
    ∧ can_write fs' = can_write fs
    ∧ ∀ path, path ≠ filePath r → files fs' !! path = files fs !! path.
Proof.
  revert fs. induction cs as [|c cs IH]; intros fs; [by exists fs |].
  destruct (call_File c r fs) as (fs1 & Hcall & Hr1 & Hw1 & Hf1).
  destruct (IH fs1) as (fs' & Hrun & Hr & Hw & Hf).
  exists fs'. cbn [session]. rewrite Hcall. cbn [mbind option_bind].
  split; [exact Hrun |]. split; [congruence |]. split; [congruence |].
  intros path Hpath. by rewrite Hf, Hf1.
Qed.

(** Another file survives a session on "tasks.txt". *)
Lemma session_touches_one_file_witness :
  ∃ fs',
    session buy_and_write
      (file_store {["notes.txt" := "keep"]}) = Some (File (mkFileRepo "tasks.txt") fs')
    ∧ files fs' !! "notes.txt" = Some "keep".
Proof.
  destruct (session_touches_one_file buy_and_write (mkFileRepo "tasks.txt")
              (mkFS {["notes.txt" := "keep"]} (λ _, true) (λ _, true)))
    as (fs' & Hrun & _ & _ & Hother).
  exists fs'. split; [exact Hrun |].
  rewrite (Hother "notes.txt"); [by vm_compute | by vm_compute].
Defined.

Lemma mark_lines_comm (i j : Z) (ls : list string) :
  mark_lines i (mark_lines j ls) = mark_lines j (mark_lines i ls).
Proof.
  unfold mark_lines at 1 3. rewrite !length_mark_lines. unfold mark_lines.
  destruct (valid_index i (length ls)) eqn:Hi,
           (valid_index j (length ls)) eqn:Hj; try done.
  destruct (decide (Z.to_nat i = Z.to_nat j)) as [->|Hne]; [done |].
  by apply list_alter_alter_ne.
Qed.

Lemma mark_tasks_comm (i j : Z) (ts : list Task) :
  mark_tasks i (mark_tasks j ts) = mark_tasks j (mark_tasks i ts).
Proof.
  unfold mark_tasks at 1 3. rewrite !length_mark_tasks. unfold mark_tasks.
  destruct (valid_index i (length ts)) eqn:Hi,
           (valid_index j (length ts)) eqn:Hj; try done.
  destruct (decide (Z.to_nat i = Z.to_nat j)) as [->|Hne]; [done |].
  by apply list_alter_alter_ne.
Qed.

Lemma marked_marked (i j : Z) r fs :
  FileView.marked i r (FileView.marked j r fs) =
    if can_write fs (filePath r) then
      set_files (<[filePath r :=
                     join_lines (mark_lines i (mark_lines j (FileView.lines r fs)))]>
                   (files fs)) fs
    else fs.
Proof.
  destruct (can_write fs (filePath r)) eqn:Hw.
  - unfold FileView.marked at 1. rewrite can_write_marked, Hw.
    rewrite (lines_marked _ _ _ Hw). unfold FileView.marked. rewrite Hw.
    unfold set_files. cbn [files can_read can_write].
    by rewrite insert_insert_eq.
  - unfold FileView.marked. by rewrite !Hw.
Qed.

(** X3.  The order of two [markTaskCompleted] calls does not matter: the store,
    and for a file its bytes, are the same either way. *)
Theorem mark_calls_commute (i j : Z) s :
  (markTaskCompleted i s ≫= markTaskCompleted j)
  = (markTaskCompleted j s ≫= markTaskCompleted i).
Proof.
  destruct s as [[ts]|r fs].
  - rewrite !markTaskCompleted_Mem. cbn [mbind option_bind].
    rewrite !markTaskCompleted_Mem. cbn [tasks]. by rewrite mark_tasks_comm.
  - rewrite !markTaskCompleted_File. cbn [mbind option_bind].
    rewrite !markTaskCompleted_File, !marked_marked.
    by rewrite mark_lines_comm.
Qed.

(** X4.  [markTaskCompleted] never adds or removes an entry, whatever the index
    and whatever the store holds. *)
Theorem mark_keeps_count (i : Z) s (l : list string) :
  getTasks s = Some l →
  ∃ s' l',
    markTaskCompleted i s = Some s'
    ∧ getTasks s' = Some l'
    ∧ length l' = length l.
Proof.
  destruct s as [[ts]|r fs].
  - rewrite getTasks_Mem. intros [= <-]. eexists _, _.
    split; [by rewrite markTaskCompleted_Mem |].
    split; [by rewrite getTasks_Mem |].
    cbn [tasks]. by rewrite !length_fmap, length_mark_tasks.
  - rewrite getTasks_File. intros [= <-]. eexists _, _.
    split; [by rewrite markTaskCompleted_File |].
    split; [by rewrite getTasks_File |].
    rewrite !length_fmap. destruct (can_write fs (filePath r)) eqn:Hw.
    + by rewrite (lines_marked _ _ _ Hw), length_mark_lines.
    + unfold FileView.marked. by rewrite Hw.
Qed.

(** Three entries before, three after, for an index in and out of range. *)
Lemma mark_keeps_count_witness :
  let s := file_store {["tasks.txt" := "a,false" +:+ Str.nl +:+ "b" +:+ Str.nl
                                       +:+ "c,true"]} in
  (∃ s' l', markTaskCompleted 1 s = Some s' ∧ getTasks s' = Some l'
            ∧ length l' = 3%nat)
  ∧ (∃ s' l', markTaskCompleted 7 s = Some s' ∧ getTasks s' = Some l'
              ∧ length l' = 3%nat).
Proof.
  intros s. split.
  - apply (mark_keeps_count 1 s ["[ ] a"; "[ ] b"; "[X] c"]). by vm_compute.
  - apply (mark_keeps_count 7 s ["[ ] a"; "[ ] b"; "[X] c"]). by vm_compute.
Defined.

(** X5.  Whatever the file held, once [addTask] or [markTaskCompleted] has
    written it, its last line is ended. *)
Theorem written_file_is_ended (task : string) (i : Z) r fs :
  can_write fs (filePath r) = true →
  FileView.ended (FileView.content r (FileRepo.addTask task r fs)) = true
  ∧ ∃ fs', FileRepo.markTaskCompleted i r fs = Some fs'
           ∧ FileView.ended (FileView.content r fs') = true.
Proof.
  intros Hw. split.
  - rewrite addTask_files, (content_added _ _ _ Hw). apply ended_spec.
    rewrite <- !append_assoc. apply join_read_lines_nl.
  - eexists. split; [by rewrite markTaskCompleted_files |].
    rewrite (content_marked _ _ _ Hw).
    apply ended_join, mark_lines_no_newlines, lines_no_newlines.
Qed.

(** A file whose last line is not ended is ended after either call. *)
Lemma written_file_is_ended_witness :
  let r := mkFileRepo "tasks.txt" in
  let fs := mkFS {["tasks.txt" := "a,true"]} (λ _, true) (λ _, true) in
  FileView.ended (FileView.content r fs) = false
  ∧ FileView.ended (FileView.content r (FileRepo.addTask "b" r fs)) = true
  ∧ ∃ fs', FileRepo.markTaskCompleted 0 r fs = Some fs'
           ∧ FileView.ended (FileView.content r fs') = true.
Proof.
  intros r fs. split; [by vm_compute |].
  exact (written_file_is_ended "b" 0 r fs eq_refl).
Defined.

End Repositories.

(** ** The text of the file, line by line *)

Section FileText.

Implicit Types (r : FileTaskRepository) (fs : FileSystem) (s : Store).

Lemma count_newlines_append (s t : string) :
  count_newlines (s +:+ t) = (count_newlines s + count_newlines t)%nat.
Proof.
  induction s as [|c s IH]; [done |].
  rewrite append_cons. cbn [count_newlines]. rewrite IH. lia.
Qed.

Lemma length_read_lines_nl (s : string) :
  length (Stream.read_lines (s +:+ Str.nl)) = S (count_newlines s).
Proof.
  induction s as [|c s IH]; [done |].
  rewrite append_cons, read_lines_cons. cbn [count_newlines].
  destruct (Ascii.eqb c Str.newline).
  - cbn [length]. by rewrite IH.
  - destruct (Stream.read_lines (s +:+ Str.nl)) as [|line ls]; [done |].
    cbn [length] in *. lia.
Qed.

(** X6.  The read loop loses nothing and invents nothing: no line it reads
    holds a line end; written back with their line ends, the lines are the
    text, with one line end more when the last line had none; and a text
    that ends with a line end has as many lines as line ends, so that a
    final line end opens no further line. *)
Theorem read_loop_reads_every_line (text : string) :
  no_newlines (Stream.read_lines text)
  ∧ (join_lines (Stream.read_lines text) = text
     ∨ join_lines (Stream.read_lines text) = text +:+ Str.nl)
  ∧ length (Stream.read_lines (text +:+ Str.nl)) = S (count_newlines text).
Proof.
  split; [apply read_lines_no_newlines |].
  split; [apply join_read_lines | apply length_read_lines_nl].
Qed.

(** X7.  The line format round trip: a task whose description holds no comma
    and no line end is encoded to a line that [getTasks] decodes to the
    same description and flag, and that [markTaskCompleted] turns into the
    encoding of the same task, completed. *)
Theorem encode_then_decode (d : string) (b : bool) :
  plain d = true →
  FileRepo.format_line (encode (mkTask d b)) = Some (display b d)
  ∧ FileRepo.complete_line (encode (mkTask d b)) = Some (encode (mkTask d true)).
Proof.
  intros Hd. split.
  - rewrite format_line_render. f_equal. by apply (render_encode (mkTask d b)).
  - rewrite complete_line_completed. f_equal.
    by apply (completed_line_encode (mkTask d b)).
Qed.

Lemma encode_then_decode_witness :
  FileRepo.format_line (encode (mkTask "Buy milk" true)) = Some "[X] Buy milk"
  ∧ FileRepo.complete_line (encode (mkTask "Buy milk" false))
    = Some "Buy milk,true".
Proof.
  split.
  - exact (proj1 (encode_then_decode "Buy milk" true eq_refl)).
  - exact (proj2 (encode_then_decode "Buy milk" false eq_refl)).
Defined.

(** X8.  A line without a comma: [getTasks] lists the whole line as the
    description, completed exactly when the line is "true", and
    [markTaskCompleted] replaces the whole line by "true". *)
Theorem line_without_comma (line : string) :
  Str.find Str.comma line = None →
  FileRepo.format_line line = Some (display (String.eqb line "true") line)
  ∧ FileRepo.complete_line line = Some "true".
Proof.
  intros H%find_None. split.
  - by rewrite format_line_render, render_no_comma.
  - by rewrite complete_line_completed, completed_line_no_comma.
Qed.

Lemma line_without_comma_witness :
  FileRepo.format_line "abc" = Some "[ ] abc"
  ∧ FileRepo.complete_line "abc" = Some "true".
Proof. exact (line_without_comma "abc" eq_refl). Defined.

(** The line [addTask] writes is listed as not completed, with the part
    of the description before its first comma. *)
Lemma render_added_line (d : string) :
  render (d +:+ ",false") = "[ ] " +:+ before_comma d.
Proof.
  unfold before_comma. destruct (Str.find Str.comma d) as [n|] eqn:E.
  - destruct (find_Some _ _ _ E) as (Hd & Hno & Hlen).
    rewrite Hd at 1. rewrite append_assoc, append_cons.
    rewrite (render_split _ _ Hno).
    destruct (String.eqb_spec (Str.drop (S n) d +:+ ",false") "true") as [Heq|];
      [|done].
    apply (f_equal String.length) in Heq. rewrite length_append in Heq.
    cbn in Heq. lia.
  - apply find_None in E. exact (render_split d "false" E).
Qed.

(** X9.  On a file that opens both ways and whose last line is ended, [addTask]
    with a description without line end adds one entry at the end of the
    listing, not completed, showing the description up to its first comma;
    the entries before are unchanged. *)
Theorem file_addTask_lists_up_to_comma (d : string) r fs (l : list string) :
  can_read fs (filePath r) = true →
  can_write fs (filePath r) = true →
  FileView.ended (FileView.content r fs) = true →
  Str.no_char Str.newline d = true →
  getTasks (File r fs) = Some l →
  getTasks (addTask d (File r fs)) = Some (l ++ ["[ ] " +:+ before_comma d]).
Proof.
  intros Hr Hw He Hd. rewrite addTask_File, !getTasks_File. intros [= <-].
  rewrite (lines_added _ _ _ Hw He), Hr, fmap_app. do 2 f_equal.
  rewrite <- append_assoc. unfold Str.nl.
  rewrite read_lines_line; [|by rewrite no_char_append, Hd].
  rewrite read_lines_empty. cbn [fmap list_fmap]. by rewrite render_added_line.
Qed.

Lemma file_addTask_lists_up_to_comma_witness :
  getTasks (addTask "Write, then send"
              (file_store {["tasks.txt" := "Buy milk,true" +:+ Str.nl]}))
  = Some ["[X] Buy milk"; "[ ] Write"].
Proof.
  apply (file_addTask_lists_up_to_comma "Write, then send"
           (mkFileRepo "tasks.txt")
           (mkFS {["tasks.txt" := "Buy milk,true" +:+ Str.nl]}
                 (λ _, true) (λ _, true))
           ["[X] Buy milk"]); by vm_compute.
Defined.

(** X10.  On a file that opens both ways and whose last line is ended, a
    description with [k] line ends adds [k + 1] entries, whatever else it
    holds. *)
Theorem file_addTask_adds_a_line_per_newline (d : string) r fs (l : list string) :
  can_read fs (filePath r) = true →
  can_write fs (filePath r) = true →
  FileView.ended (FileView.content r fs) = true →
  getTasks (File r fs) = Some l →
  ∃ l', getTasks (addTask d (File r fs)) = Some (l ++ l')
        ∧ length l' = S (count_newlines d).
Proof.
  intros Hr Hw He. rewrite addTask_File, !getTasks_File. intros [= <-].
  rewrite (lines_added _ _ _ Hw He), Hr, fmap_app.
  eexists. split; [done |].
  rewrite length_fmap, <- append_assoc, length_read_lines_nl.
  rewrite count_newlines_append. cbn. lia.
Qed.

Lemma file_addTask_adds_a_line_per_newline_witness :
  ∃ l', getTasks (addTask ("a" +:+ Str.nl +:+ "b") (file_store ∅)) = Some ([] ++ l')
        ∧ length l' = 2%nat.
Proof.
  apply (file_addTask_adds_a_line_per_newline ("a" +:+ Str.nl +:+ "b")
           (mkFileRepo "tasks.txt") (mkFS ∅ (λ _, true) (λ _, true)) []);
    by vm_compute.
Defined.

End FileText.

(** ** Sessions: what is listed at the end *)

Section Listings.

Implicit Types (r : FileTaskRepository) (fs : FileSystem) (s : Store).

Lemma added_descriptions_cons (c : Call) (cs : list Call) :
  added_descriptions (c :: cs) =
    match c with
    | AddTask task => task :: added_descriptions cs
    | GetTasks | MarkTaskCompleted _ => added_descriptions cs
    end.
Proof. by destruct c. Qed.

Lemma mark_tasks_descriptions (index : Z) (ts : list Task) :
  description <$> mark_tasks index ts = description <$> ts.
Proof.
  unfold mark_tasks. destruct (valid_index index (length ts)); [|done].
  rewrite (list_fmap_alter description complete_task id);
    [by apply list_alter_id | by apply Forall_true].
Qed.

(** In memory the descriptions are those added, in the order added. *)
Lemma session_Mem_descriptions (cs : list Call) (ts : list Task) :
  ∃ ts',
    session cs (Mem (mkInMemory ts)) = Some (Mem (mkInMemory ts'))
    ∧ description <$> ts' = (description <$> ts) ++ added_descriptions cs.
Proof.
  revert ts. induction cs as [|c cs IH]; intros ts.
  - exists ts. by rewrite app_nil_r.
  - rewrite added_descriptions_cons. cbn [session].
    destruct c as [task| |index]; unfold call.
    + rewrite addTask_Mem. cbn [mbind option_bind tasks].
      destruct (IH (ts ++ [mkTask task false])) as (ts' & Hrun & Hd).
      exists ts'. split; [exact Hrun |].
      by rewrite Hd, fmap_app, <- app_assoc.
    + rewrite getTasks_Mem. cbn [mbind option_bind]. apply IH.
    + rewrite markTaskCompleted_Mem. cbn [mbind option_bind tasks].
      destruct (IH (mark_tasks index ts)) as (ts' & Hrun & Hd).
      exists ts'. split; [exact Hrun |]. by rewrite Hd, mark_tasks_descriptions.
Qed.

Lemma plain_calls (cs : list Call) :
  Forall (λ d, plain d = true) (added_descriptions cs) →
  forallb plain_call cs = true.
Proof.
  induction cs as [|c cs IH]; [done |].
  rewrite added_descriptions_cons. cbn [forallb].
  destruct c as [task| |index]; cbn [plain_call].
  - intros H. inversion_clear H as [|? ? Hd Hcs]. by rewrite Hd, IH.
  - apply IH.
  - apply IH.
Qed.

Lemma drop_show_task (ts : list Task) :
  Str.drop 4 <$> (show_task <$> ts) = description <$> ts.
Proof.
  rewrite <- list_fmap_compose. apply list_fmap_ext.
  intros k t _. apply drop_display.
Qed.

(** X11.  From an empty store whose streams open, after any session the listing
    shows, after the four characters of each mark, exactly the descriptions
    that were added, in the order they were added, whichever entries were
    marked in between; on a file when no description holds a comma or a
    line end. *)
Theorem listing_shows_added_descriptions (cs : list Call) s s' (l : list string) :
  is_empty s = true →
  readable s = true →
  writable s = true →
  Forall (λ d, storable s d = true) (added_descriptions cs) →
  session cs s = Some s' →
  getTasks s' = Some l →
  Str.drop 4 <$> l = added_descriptions cs.
Proof.
  destruct s as [[ts]|r fs]; cbn [is_empty readable writable storable tasks].
  - intros Hts _ _ _. destruct ts; [|done].
    destruct (session_Mem_descriptions cs []) as (ts' & Hrun & Hd).
    rewrite Hrun. intros [= <-]. rewrite getTasks_Mem. intros [= <-].
    cbn [tasks]. by rewrite drop_show_task, Hd.
  - intros He Hr Hw Hplain%plain_calls.
    destruct (sim_session cs [] r fs Hplain (sim_empty _ _ Hr Hw He))
      as (ts' & fs' & Hm & Hf & Hsim).
    destruct (session_Mem_descriptions cs []) as (ts2 & Hrun & Hd).
    rewrite Hm in Hrun. injection Hrun as <-.
    rewrite Hf. intros [= <-]. rewrite (sim_getTasks _ _ _ Hsim), getTasks_Mem.
    intros [= <-]. cbn [tasks]. by rewrite drop_show_task, Hd.
Qed.

Lemma listing_shows_added_descriptions_witness :
  ∃ s' l,
    session [AddTask "a"; MarkTaskCompleted 0; AddTask "b"; GetTasks;
             MarkTaskCompleted 9] (file_store ∅) = Some s'
    ∧ getTasks s' = Some l
    ∧ Str.drop 4 <$> l = ["a"; "b"].
Proof.
  destruct (session_total
              [AddTask "a"; MarkTaskCompleted 0; AddTask "b"; GetTasks;
               MarkTaskCompleted 9] (file_store ∅)) as (s' & Hrun).
  destruct (getTasks_total s') as (l & Hget).
  exists s', l. split; [exact Hrun |]. split; [exact Hget |].
  apply (listing_shows_added_descriptions
           [AddTask "a"; MarkTaskCompleted 0; AddTask "b"; GetTasks;
            MarkTaskCompleted 9] (file_store ∅) s' l);
    [by vm_compute | reflexivity | reflexivity | repeat constructor
    | exact Hrun | exact Hget].
Defined.

Lemma marked_writable (index : Z) r fs :
  can_write fs (filePath r) = true →
  FileView.marked index r fs =
    set_files (<[filePath r :=
                   join_lines (mark_lines index (FileView.lines r fs))]>
                 (files fs)) fs.
Proof. intros Hw. unfold FileView.marked. by rewrite Hw. Qed.

Lemma added_writable (task : string) r fs :
  can_write fs (filePath r) = true →
  FileView.added task r fs =
    set_files (<[filePath r :=
                   FileView.content r fs +:+ task +:+ ",false" +:+ Str.nl]>
                 (files fs)) fs.
Proof. intros Hw. unfold FileView.added. by rewrite Hw. Qed.

Lemma marked_added (d : string) (i : nat) r fs :
  FileView.ended (FileView.content r fs) = true →
  (i < length (FileView.lines r fs))%nat →
  FileView.marked (Z.of_nat i) r (FileView.added d r fs)
  = FileView.added d r (FileView.marked (Z.of_nat i) r fs).
Proof.
  intros He Hi. destruct (can_write fs (filePath r)) eqn:Hw.
  - destruct (can_read fs (filePath r)) eqn:Hr;
      [|rewrite (lines_unreadable _ _ Hr) in Hi; cbn in Hi; lia].
    rewrite (marked_writable _ _ (FileView.added d r fs))
      by (by rewrite can_write_added).
    rewrite (lines_added _ _ _ Hw He), Hr.
    rewrite (added_writable _ _ (FileView.marked (Z.of_nat i) r fs))
      by (by rewrite can_write_marked).
    rewrite (content_marked _ _ _ Hw).
    rewrite (added_writable _ _ _ Hw), (marked_writable _ _ _ Hw).
    unfold set_files. cbn [files can_read can_write].
    rewrite !insert_insert_eq. do 2 f_equal.
    rewrite mark_lines_nat by (rewrite length_app; lia).
    rewrite (alter_app_l _ _ _ _ Hi), join_lines_app, (mark_lines_nat _ _ Hi).
    f_equal. rewrite <- !append_assoc. apply join_read_lines_nl.
  - unfold FileView.marked, FileView.added. by rewrite !Hw.
Qed.

(** X12.  Marking an entry that is there and adding a task can be done in either
    order: in memory always, on a file whose last line is ended. *)
Theorem mark_and_add_commute (d : string) (i : nat) s (l : list string) :
  well_ended s = true →
  getTasks s = Some l →
  (i < length l)%nat →
  markTaskCompleted (Z.of_nat i) (addTask d s)
  = addTask d <$> markTaskCompleted (Z.of_nat i) s.
Proof.
  destruct s as [[ts]|r fs]; cbn [well_ended].
  - intros _. rewrite getTasks_Mem. intros [= <-]. rewrite length_fmap.
    cbn [tasks]. intros Hi.
    rewrite addTask_Mem, !markTaskCompleted_Mem.
    cbn [fmap option_fmap option_map tasks]. rewrite addTask_Mem. cbn [tasks].
    do 3 f_equal. rewrite mark_tasks_nat by (rewrite length_app; lia).
    by rewrite (alter_app_l _ _ _ _ Hi), (mark_tasks_nat _ _ Hi).
  - intros He. rewrite getTasks_File. intros [= <-]. rewrite length_fmap.
    intros Hi. rewrite addTask_File, !markTaskCompleted_File.
    cbn [fmap option_fmap option_map]. rewrite addTask_File.
    by rewrite (marked_added _ _ _ _ He Hi).
Qed.

Lemma mark_and_add_commute_witness :
  let s := file_store {["tasks.txt" := "Buy milk,false" +:+ Str.nl]} in
  markTaskCompleted 0 (addTask "Write report" s)
  = addTask "Write report" <$> markTaskCompleted 0 s.
Proof.
  intros s. apply (mark_and_add_commute "Write report" 0 s ["[ ] Buy milk"]).
  - by vm_compute.
  - by vm_compute.
  - cbn. lia.
Defined.

End Listings.

(** ** The user interface *)

Section UserInterface.

Implicit Types (s : Store).

Lemma put_put {I : Type} `{Istream I} (a b : string) (c : Console I) : put b (put a c) = put (a +:+ b) c.
Proof. unfold put. cbn [cin cout]. by rewrite append_assoc. Qed.

Lemma put_empty {I : Type} `{Istream I} (c : Console I) : put "" c = c.
Proof. destruct c. unfold put. cbn [cin cout]. by rewrite append_nil_r. Qed.

Lemma size_t_succ_small (i : nat) :
  (N.of_nat i + 1 < 2 ^ 64)%N → size_t_succ i = N.of_nat (i + 0 + 1).
Proof. intros Hi. unfold size_t_succ. rewrite N.mod_small; lia. Qed.

Lemma numbered_cons (i : nat) (task : string) (tasks : list string) :
  numbered i (task :: tasks) =
    (pretty (N.of_nat (i + 0 + 1)) +:+ ". " +:+ task +:+ Str.nl)
    +:+ numbered (S i) tasks.
Proof.
  unfold numbered. rewrite imap_cons. cbn [foldr]. do 2 f_equal.
  apply imap_ext. intros k task' _. cbn. do 3 f_equal. lia.
Qed.

(** The loop that prints the tasks writes [numbered] and reads nothing. *)
Lemma print_tasks_numbered {I : Type} `{Istream I} (i : nat) (tasks : list string) (c : Console I) :
  (N.of_nat (i + length tasks) < 2 ^ 64)%N →
  TaskManagerUI.print_tasks i tasks c = put (numbered i tasks) c.
Proof.
  revert i c. induction tasks as [|task tasks IH]; intros i c Hi.
  - cbn. by rewrite put_empty.
  - cbn [TaskManagerUI.print_tasks length] in *.
    rewrite IH by lia. rewrite !put_put, numbered_cons.
    rewrite size_t_succ_small by lia. by rewrite !append_assoc.
Qed.

Lemma print_tasks_cin {I : Type} `{Istream I} (i : nat) (tasks : list string) (c : Console I) :
  cin (TaskManagerUI.print_tasks i tasks c) = cin c.
Proof.
  revert i c. induction tasks as [|task tasks IH]; intros i c; [done |].
  cbn [TaskManagerUI.print_tasks]. by rewrite IH.
Qed.

Lemma print_tasks_cout {I : Type} `{Istream I} (i : nat) (tasks : list string) (c : Console I) :
  ∃ text, cout (TaskManagerUI.print_tasks i tasks c) = cout c +:+ text.
Proof.
  revert i c. induction tasks as [|task tasks IH]; intros i c.
  - exists "". by rewrite append_nil_r.
  - cbn [TaskManagerUI.print_tasks].
    destruct (IH (S i) (put Str.nl (put task (put ". "
                (put (pretty (size_t_succ i)) c))))) as [text ->].
    rewrite !put_put. unfold put. cbn [cout]. rewrite append_assoc. eauto.
Qed.

(** X13.  [viewTasks] reads nothing and writes the listing of the store: one
    message when it is empty; otherwise a heading and then, for each entry
    in order, its position counted from 1, ". ", the entry and a line
    end. *)
Theorem viewTasks_prints_the_listing {I : Type} `{Istream I} s (c : Console I) (l : list string) :
  getTasks s = Some l →
  (N.of_nat (length l) < 2 ^ 64)%N →
  TaskManagerUI.viewTasks s c = Some (put (listing_text l) c).
Proof.
  intros Hget Hl. unfold TaskManagerUI.viewTasks. rewrite Hget.
  cbn [mbind option_bind]. f_equal. destruct l as [|e l]; [done |].
  rewrite print_tasks_numbered by (cbn [length] in *; lia).
  by rewrite put_put, !append_assoc.
Qed.

Lemma viewTasks_prints_the_listing_witness :
  TaskManagerUI.viewTasks
    (file_store {["tasks.txt" := "Buy milk,true" +:+ Str.nl +:+
                                 "Write report,false" +:+ Str.nl]})
    (mkConsole (mkScript [] []) "")
  = Some (mkConsole (mkScript [] [])
            (Str.nl +:+ "Tasks:" +:+ Str.nl +:+
             "1. [X] Buy milk" +:+ Str.nl +:+
             "2. [ ] Write report" +:+ Str.nl)).
Proof.
  apply (viewTasks_prints_the_listing
           (file_store {["tasks.txt" := "Buy milk,true" +:+ Str.nl +:+
                                        "Write report,false" +:+ Str.nl]})
           (mkConsole (mkScript [] []) "")
           ["[X] Buy milk"; "[ ] Write report"]); by vm_compute.
Defined.

(** What [markTaskCompleted i] does to the listing for an [i] inside it. *)
Lemma mark_inside_listing s (l : list string) (k : nat) :
  writable s = true →
  getTasks s = Some l →
  (k < length l)%nat →
  ∃ s' l' e',
    markTaskCompleted (Z.of_nat k) s = Some s'
    ∧ getTasks s' = Some l'
    ∧ l' !! k = Some e'
    ∧ Str.starts_with "[X] " e' = true
    ∧ ∀ j, j ≠ k → l' !! j = l !! j.
Proof.
  destruct s as [[ts]|r fs]; cbn [writable].
  - intros _. rewrite getTasks_Mem. cbn [tasks]. intros [= <-].
    rewrite length_fmap. intros Hk.
    destruct (lookup_lt_is_Some_2 ts k Hk) as [t Ht].
    eexists _, _, _.
    split; [by rewrite markTaskCompleted_Mem |].
    split; [by rewrite getTasks_Mem |].
    cbn [tasks]. rewrite (mark_tasks_nat _ _ Hk).
    split; [by rewrite list_lookup_fmap, list_lookup_alter_eq, Ht |].
    split; [done |].
    intros j Hj. by rewrite !list_lookup_fmap, list_lookup_alter_ne.
  - intros Hw. rewrite getTasks_File. intros [= <-].
    rewrite length_fmap. intros Hk.
    destruct (lookup_lt_is_Some_2 (FileView.lines r fs) k Hk) as [line Hline].
    eexists _, _, _.
    split; [by rewrite markTaskCompleted_File |].
    split; [by rewrite getTasks_File |].
    rewrite (lines_marked _ _ _ Hw), (mark_lines_nat _ _ Hk).
    split; [by rewrite list_lookup_fmap, list_lookup_alter_eq, Hline |].
    split; [apply render_completed_line |].
    intros j Hj. by rewrite !list_lookup_fmap, list_lookup_alter_ne.
Qed.

(** What [markTaskCompleted i] does to the listing for an [i] outside it. *)
Lemma mark_outside_listing s (l : list string) (i : Z) :
  getTasks s = Some l →
  i < 0 ∨ Z.of_nat (length l) <= i →
  ∃ s', markTaskCompleted i s = Some s' ∧ getTasks s' = Some l.
Proof.
  destruct s as [[ts]|r fs].
  - rewrite getTasks_Mem. cbn [tasks]. intros [= <-] Hi.
    rewrite length_fmap in Hi.
    eexists. split; [by rewrite markTaskCompleted_Mem |].
    rewrite getTasks_Mem. cbn [tasks]. by rewrite (mark_tasks_invalid _ _ Hi).
  - rewrite getTasks_File. intros [= <-] Hi. rewrite length_fmap in Hi.
    eexists. split; [by rewrite markTaskCompleted_File |].
    rewrite getTasks_File. do 2 f_equal.
    destruct (can_write fs (filePath r)) eqn:Hw.
    + by rewrite (lines_marked _ _ _ Hw), (mark_lines_invalid _ _ Hi).
    + unfold FileView.marked. by rewrite Hw.
Qed.

(** The stream the handler reads its number from is the one it was
    given: printing reads nothing. *)
Lemma mark_prompt_cin {I : Type} `{Istream I} (tasks : list string) (c : Console I) :
  cin (put "Enter the task number to mark as completed: "
         (TaskManagerUI.print_tasks 0 tasks
            (put (Str.nl +:+ "Tasks:" +:+ Str.nl) c))) = cin c.
Proof. cbn [put cin]. by rewrite print_tasks_cin. Qed.

(** X14.  Answering the prompt of the mark handler with the number printed
    beside an entry marks that entry: in a store that can be written, entry
    [k] (printed as [k + 1]) starts with "[X] " afterwards, the other
    entries are what they were, the number is consumed, and the handler
    ends by writing "Task marked as completed.". *)
Theorem ui_mark_marks_the_numbered_task {I : Type} `{Istream I} s (c : Console I) (l : list string) (k : nat) (rest : I) :
  writable s = true →
  getTasks s = Some l →
  (k < length l)%nat →
  extract_int (cin c) = (Z.of_nat (S k), rest) →
  ∃ c' s' l' e' text,
    TaskManagerUI.markTaskCompleted s c = Some (c', s')
    ∧ cin c' = rest
    ∧ cout c' = cout c +:+ text +:+ "Task marked as completed." +:+ Str.nl
    ∧ getTasks s' = Some l'
    ∧ l' !! k = Some e'
    ∧ Str.starts_with "[X] " e' = true
    ∧ ∀ j, j ≠ k → l' !! j = l !! j.
Proof.
  intros Hw Hget Hk Hin.
  destruct (mark_inside_listing s l k Hw Hget Hk)
    as (s' & l' & e' & Hmark & Hget' & He' & HX & Hothers).
  destruct l as [|e l]; [cbn in Hk; lia |].
  destruct (print_tasks_cout 0 (e :: l)
              (put (Str.nl +:+ "Tasks:" +:+ Str.nl) c)) as [text Htext].
  unfold TaskManagerUI.markTaskCompleted. rewrite Hget.
  cbn [mbind option_bind]. rewrite mark_prompt_cin, Hin.
  unfold int_pred. destruct (Z.eqb_spec (Z.of_nat (S k)) (- 2 ^ 31)); [lia |].
  cbn [mbind option_bind].
  replace (Z.of_nat (S k) - 1) with (Z.of_nat k) by lia.
  rewrite Hmark. cbn [mbind option_bind].
  exists (put ("Task marked as completed." +:+ Str.nl)
            (consume rest
               (put "Enter the task number to mark as completed: "
                  (TaskManagerUI.print_tasks 0 (e :: l)
                     (put (Str.nl +:+ "Tasks:" +:+ Str.nl) c))))),
    s', l', e',
    ((Str.nl +:+ "Tasks:" +:+ Str.nl) +:+ text
     +:+ "Enter the task number to mark as completed: ").
  split; [done |]. split; [done |]. split; [|done].
  cbn [put consume cout cin]. rewrite Htext. cbn [put cout].
  by rewrite !append_assoc.
Qed.

Lemma ui_mark_marks_the_numbered_task_witness :
  let s := file_store {["tasks.txt" := "Buy milk,false" +:+ Str.nl +:+
                                       "Write report,false" +:+ Str.nl]} in
  ∃ c' s' l',
    TaskManagerUI.markTaskCompleted s (mkConsole (mkScript [2; 4] []) "")
    = Some (c', s')
    ∧ cin c' = mkScript [4] []
    ∧ getTasks s' = Some l'
    ∧ l' !! 0%nat = Some "[ ] Buy milk"
    ∧ ∃ e', l' !! 1%nat = Some e' ∧ Str.starts_with "[X] " e' = true.
Proof.
  intros s.
  destruct (ui_mark_marks_the_numbered_task s
              (mkConsole (mkScript [2; 4] []) "")
              ["[ ] Buy milk"; "[ ] Write report"] 1 (mkScript [4] []))
    as (c' & s' & l' & e' & text & Hrun & Hcin & _ & Hget & He' & HX & Hothers);
    [by vm_compute | by vm_compute | cbn; lia | by vm_compute |].
  exists c', s', l'. split; [exact Hrun |]. split; [exact Hcin |].
  split; [exact Hget |]. split; [by rewrite Hothers | eauto].
Defined.

(** X15.  An answer that is no number beside an entry (zero, a negative number
    above the least [int], a number beyond the last entry) changes no
    entry, and the handler still ends by writing "Task marked as
    completed.". *)
Theorem ui_mark_out_of_range_reports_success {I : Type} `{Istream I} s (c : Console I) (e : string) (l : list string)
    (n : Z) (rest : I) :
  getTasks s = Some (e :: l) →
  extract_int (cin c) = (n, rest) →
  n ≠ - 2 ^ 31 →
  n < 1 ∨ Z.of_nat (length (e :: l)) < n →
  ∃ c' s' text,
    TaskManagerUI.markTaskCompleted s c = Some (c', s')
    ∧ cin c' = rest
    ∧ cout c' = cout c +:+ text +:+ "Task marked as completed." +:+ Str.nl
    ∧ getTasks s' = Some (e :: l).
Proof.
  intros Hget Hin Hn Hrange.
  destruct (mark_outside_listing s (e :: l) (n - 1) Hget) as (s' & Hmark & Hget');
    [lia |].
  destruct (print_tasks_cout 0 (e :: l)
              (put (Str.nl +:+ "Tasks:" +:+ Str.nl) c)) as [text Htext].
  unfold TaskManagerUI.markTaskCompleted. rewrite Hget.
  cbn [mbind option_bind]. rewrite mark_prompt_cin, Hin.
  unfold int_pred. destruct (Z.eqb_spec n (- 2 ^ 31)); [done |].
  cbn [mbind option_bind]. rewrite Hmark. cbn [mbind option_bind].
  exists (put ("Task marked as completed." +:+ Str.nl)
            (consume rest
               (put "Enter the task number to mark as completed: "
                  (TaskManagerUI.print_tasks 0 (e :: l)
                     (put (Str.nl +:+ "Tasks:" +:+ Str.nl) c))))),
    s',
    ((Str.nl +:+ "Tasks:" +:+ Str.nl) +:+ text
     +:+ "Enter the task number to mark as completed: ").
  split; [done |]. split; [done |]. split; [|done].
  cbn [put consume cout cin]. rewrite Htext. cbn [put cout].
  by rewrite !append_assoc.
Qed.

Lemma ui_mark_out_of_range_reports_success_witness :
  ∃ c' s' text,
    TaskManagerUI.markTaskCompleted
      (file_store {["tasks.txt" := "Buy milk,false" +:+ Str.nl]})
      (mkConsole (mkScript [5] []) "") = Some (c', s')
    ∧ cin c' = mkScript [] []
    ∧ cout c' = "" +:+ text +:+ "Task marked as completed." +:+ Str.nl
    ∧ getTasks s' = Some ["[ ] Buy milk"].
Proof.
  apply (ui_mark_out_of_range_reports_success
           (file_store {["tasks.txt" := "Buy milk,false" +:+ Str.nl]})
           (mkConsole (mkScript [5] []) "") "[ ] Buy milk" [] 5 (mkScript [] []));
    [by vm_compute | by vm_compute | lia | right; cbn; lia].
Defined.

Lemma empty_store_lists_nothing s : is_empty s = true → getTasks s = Some [].
Proof.
  destruct s as [[ts]|r fs]; cbn [is_empty tasks].
  - by destruct ts.
  - intros He%String.eqb_eq. rewrite getTasks_File.
    destruct (can_read fs (filePath r)) eqn:Hr.
    + by rewrite (lines_readable _ _ Hr), He.
    + by rewrite (lines_unreadable _ _ Hr).
Qed.

(** X16.  On an empty store (an empty vector; a missing or empty file) the mark
    handler asks for no number: it writes one message, reads nothing and
    returns the store as it is, so that a missing file is not created,
    which a call of [markTaskCompleted] itself would do. *)
Theorem ui_mark_with_no_tasks {I : Type} `{Istream I} s (c : Console I) :
  is_empty s = true →
  TaskManagerUI.markTaskCompleted s c
  = Some (put ("No tasks available to mark as completed." +:+ Str.nl) c, s).
Proof.
  intros Hs%empty_store_lists_nothing.
  unfold TaskManagerUI.markTaskCompleted. by rewrite Hs.
Qed.

Lemma ui_mark_with_no_tasks_witness :
  TaskManagerUI.markTaskCompleted (file_store ∅) (mkConsole (mkScript [1] []) "")
  = Some (mkConsole (mkScript [1] [])
            ("No tasks available to mark as completed." +:+ Str.nl),
          file_store ∅).
Proof.
  exact (ui_mark_with_no_tasks (file_store ∅) (mkConsole (mkScript [1] []) "")
           eq_refl).
Defined.

End UserInterface.

(** ** The loop of the user interface *)

Section Loop.

Implicit Types (s : Store).

(** X17.  The add handler stores the line it reads, as it is: in a store whose
    streams open and whose text is ended, a line the store can take is
    listed last as "[ ] " and the line, after the entries that were there;
    the handler writes its prompt and "Task added successfully.", and
    leaves in the stream what [getline] left. *)
Theorem ui_addTask_lists_the_line {I : Type} `{Istream I} s (c : Console I)
    (l : list string) (line : string) (rest : I) :
  readable s = true →
  writable s = true →
  well_ended s = true →
  storable s line = true →
  getTasks s = Some l →
  getline_cin (cin c) = (line, rest) →
  ∃ s',
    TaskManagerUI.addTask s c
    = (mkConsole rest (cout c +:+ "Enter a new task: "
                       +:+ "Task added successfully." +:+ Str.nl), s')
    ∧ getTasks s' = Some (l ++ ["[ ] " +:+ line]).
Proof.
  intros Hr Hw He Hline Hget Hin. unfold TaskManagerUI.addTask.
  cbn [put cin cout]. rewrite Hin.
  exists (addTask line s). split.
  { unfold put, consume. cbn [cin cout]. by rewrite append_assoc. }
  destruct s as [[ts]|r fs]; cbn [readable writable well_ended storable] in *.
  - rewrite getTasks_Mem in Hget. injection Hget as <-.
    rewrite addTask_Mem, getTasks_Mem. cbn [tasks]. by rewrite fmap_app.
  - rewrite getTasks_File in Hget. injection Hget as <-.
    rewrite addTask_File, getTasks_File, (lines_added _ _ _ Hw He), Hr.
    rewrite (read_lines_plain _ Hline), fmap_app. cbn [fmap list_fmap].
    by rewrite (render_plain _ Hline).
Qed.

Lemma ui_addTask_lists_the_line_witness :
  ∃ s',
    TaskManagerUI.addTask
      (file_store {["tasks.txt" := "Buy milk,true" +:+ Str.nl]})
      (mkConsole (mkScript [4] ["Write report"]) "")
    = (mkConsole (mkScript [4] [])
         ("" +:+ "Enter a new task: " +:+ "Task added successfully." +:+ Str.nl),
       s')
    ∧ getTasks s' = Some (["[X] Buy milk"] ++ ["[ ] Write report"]).
Proof.
  apply (ui_addTask_lists_the_line
           (file_store {["tasks.txt" := "Buy milk,true" +:+ Str.nl]})
           (mkConsole (mkScript [4] ["Write report"]) "")
           ["[X] Buy milk"] "Write report" (mkScript [4] []));
    by vm_compute.
Defined.




(** Fuel left over changes nothing: an outcome reached with some fuel is
    reached with more. *)
Lemma run_more_fuel {R : Type} `{ITaskRepository R} {I : Type} `{Istream I}
    (fuel : nat) (repository : R) (c : Console I) (o : outcome (Console I * R)) :
  TaskManagerUI.run fuel repository c = o →
  o ≠ Running →
  TaskManagerUI.run (S fuel) repository c = o.
Proof.
  revert repository c. induction fuel as [|fuel IH]; intros repository c.
  - cbn [TaskManagerUI.run]. by intros <-.
  - remember (S fuel) as fuel1 eqn:Hfuel. intros Hrun Ho.
    cbn [TaskManagerUI.run]. rewrite Hfuel in Hrun.
    cbn [TaskManagerUI.run] in Hrun. rewrite Hfuel.
    destruct (extract_int (cin (put TaskManagerUI.menu c))) as [choice rest].
    repeat case_match; subst; try done; by apply IH.
Qed.



End Loop.

(** ** What can go wrong in the loop, and how [main] starts *)

Section Faults.

Implicit Types (s : Store).






(** X20.  [main] starts with no task: whatever the input, a first choice of 1
    is answered "No tasks available.", and a first choice of 3 is answered
    "No tasks available to mark as completed." without a number being
    asked for; the loop then goes on with the empty store. *)
Theorem main_starts_with_no_tasks {I : Type} `{Istream I}
    (fuel : nat) (input rest : I) :
  (extract_int input = (1, rest) →
   main (S fuel) input
   = TaskManagerUI.run fuel (Mem InMemory.empty)
       (mkConsole (ignore rest)
          (TaskManagerUI.menu +:+ "No tasks available." +:+ Str.nl)))
  ∧ (extract_int input = (3, rest) →
     main (S fuel) input
     = TaskManagerUI.run fuel (Mem InMemory.empty)
         (mkConsole (ignore rest)
            (TaskManagerUI.menu
             +:+ "No tasks available to mark as completed." +:+ Str.nl))).
Proof.
  split; intros Hin; unfold main; cbn [TaskManagerUI.run put cin cout];
    rewrite Hin; cbn [consume put cin cout mbind option_bind].
  - unfold TaskManagerUI.viewTasks. rewrite getTasks_Mem.
    cbn [tasks InMemory.empty fmap list_fmap mbind option_bind].
    f_equal.
  - unfold TaskManagerUI.markTaskCompleted. rewrite getTasks_Mem.
    cbn [tasks InMemory.empty fmap list_fmap mbind option_bind].
    f_equal.
Qed.

Lemma main_starts_with_no_tasks_witness :
  main 2 (mkScript [1; 4] [])
  = Returned (mkConsole (mkScript [] [])
                (TaskManagerUI.menu +:+ "No tasks available." +:+ Str.nl
                 +:+ TaskManagerUI.menu +:+ "Exiting..." +:+ Str.nl),
              Mem InMemory.empty).
Proof.
  assert (extract_int (mkScript [1; 4] []) = (1, mkScript [4] [])) as Hin
    by reflexivity.
  rewrite (proj1 (main_starts_with_no_tasks 1 (mkScript [1; 4] [])
                    (mkScript [4] [])) Hin).
  reflexivity.
Defined.

End Faults.
